(** * pulse: a shallow embedding of the broadcast server and of the sync client

    The repository holds two programs.

    - [server/main.go]: a WebSocket server that frames text messages by
      hand ([wsConn.writeText]), keeps the set of live connections in a
      [hub], and runs [startPulseLoop], which broadcasts one [pulseMessage]
      per period.
    - [src/pulse-sync.ts]: the browser client [PulseSyncClient], which
      predicts the arrival of the next pulse, smooths the arrival bias,
      keeps a rolling window of stable/unstable pulses and decides [locked].

    Module [Server] embeds the Go code, module [Client] the TypeScript
    code.  All definitions come first; the theorems follow. *)

From Stdlib Require Import ZArith List Bool Lia PrimFloat Sorted.
From stdpp Require Import base gmap sets list strings.

Local Open Scope Z_scope.

(* ===================================================================== *)
(** * Part I: the Go server                                               *)
(* ===================================================================== *)

Module Server.

(** ** Frame codec: [wsConn.writeText] *)

(** A Go [byte] is an 8-bit integer; the conversion [byte(x)] keeps the
    low eight bits. *)
Definition byte (x : Z) : Z := x mod 256.

(** [uint64(n)] for an [int] n. *)
Definition uint64 (x : Z) : Z := x mod 2 ^ 64.

Definition finAndText : Z := 0x81.

(** The frame that [writeText] builds before it takes the write lock:
    [finAndText], the length bytes chosen by the [switch], the payload. *)
Definition writeText_frame (payload : list Z) : list Z :=
  let frame := [finAndText] in
  let n := Z.of_nat (length payload) in
  let frame :=
    if n <? 126 then
      frame ++ [byte n]
    else if n <=? 65535 then
      frame ++ [126; byte (Z.shiftr n 8); byte n]
    else
      frame ++ [127;
                byte (Z.shiftr (uint64 n) 56);
                byte (Z.shiftr (uint64 n) 48);
                byte (Z.shiftr (uint64 n) 40);
                byte (Z.shiftr (uint64 n) 32);
                byte (Z.shiftr (uint64 n) 24);
                byte (Z.shiftr (uint64 n) 16);
                byte (Z.shiftr (uint64 n) 8);
                byte (uint64 n)] in
  frame ++ payload.

(** The length prefix in the words of the specification: [k] bytes, most
    significant first. *)
Fixpoint big_endian (k : nat) (n : Z) : list Z :=
  match k with
  | O => []
  | S k' => (n / 256 ^ Z.of_nat k') mod 256 :: big_endian k' n
  end.

Definition from_big_endian (bs : list Z) : Z :=
  fold_left (fun acc b => acc * 256 + b) bs 0.

Definition three_tier_length (n : Z) : list Z :=
  if n <? 126 then [n]
  else if n <=? 65535 then 126 :: big_endian 2 n
  else 127 :: big_endian 8 n.

(** What a receiver reads back from the length bytes that follow the first
    byte of a frame. *)
Definition read_length (bs : list Z) : option Z :=
  match bs with
  | [] => None
  | b :: rest =>
      if b <? 126 then Some b
      else if b =? 126 then Some (from_big_endian (take 2 rest))
      else Some (from_big_endian (take 8 rest))
  end.

(** ** Connection registry: [hub] *)

(** A [*wsConn] is a pointer; its identity is all the hub uses. *)
Definition wsConn := positive.

(** The hub together with the part of the network it acts on: [conns] is
    the map [h.conns] (a set, the values are [struct{}]), [closed] the
    connections on which [close] has been called, [delivered] the frames
    that [conn.Write] accepted, per connection, oldest first. *)
Record hub := mkHub {
  conns : gset wsConn;
  closed : gset wsConn;
  delivered : wsConn -> list (list Z)
}.

Definition newHub : hub :=
  {| conns := ∅; closed := ∅; delivered := fun _ => [] |}.

Definition add (h : hub) (c : wsConn) : hub :=
  {| conns := {[c]} ∪ conns h; closed := closed h; delivered := delivered h |}.

(** [delete(h.conns, c)] then [c.close()]. *)
Definition remove (h : hub) (c : wsConn) : hub :=
  {| conns := conns h ∖ {[c]};
     closed := {[c]} ∪ closed h;
     delivered := delivered h |}.

Definition count (h : hub) : Z := Z.of_nat (size (conns h)).

(** Whether [conn.Write] on [c] returns an error.  The network decides:
    [fails c] says that the write on [c] errors or misses its deadline; a
    write on a connection that was closed always errors. *)
Definition write_errors (fails : wsConn -> bool) (h : hub) (c : wsConn) : bool :=
  fails c || bool_decide (c ∈ closed h).

(** [writeText] on connection [c]: the new state, and [true] when
    [err != nil]. *)
Definition writeText (fails : wsConn -> bool) (h : hub) (c : wsConn)
    (payload : list Z) : hub * bool :=
  if write_errors fails h c then (h, true)
  else
    ({| conns := conns h;
        closed := closed h;
        delivered := fun c' =>
          if bool_decide (c' = c)
          then delivered h c' ++ [writeText_frame payload]
          else delivered h c' |},
     false).

(** The second loop of [broadcastJSON], over the snapshot slice. *)
Fixpoint write_snapshot (fails : wsConn -> bool) (data : list Z)
    (snapshot : list wsConn) (h : hub) : hub :=
  match snapshot with
  | [] => h
  | c :: rest =>
      let '(h1, err) := writeText fails h c data in
      let h2 := if err then remove h1 c else h1 in
      write_snapshot fails data rest h2
  end.

(** [broadcastJSON].  [marshal] stands for [json.Marshal]; [snapshot] is
    the slice filled by [for c := range h.conns], whose order Go leaves
    unspecified: callers of this definition take any permutation of
    [elements (conns h)]. *)
Definition broadcastJSON {V : Type} (marshal : V -> option (list Z))
    (fails : wsConn -> bool) (snapshot : list wsConn) (h : hub) (v : V) : hub :=
  match marshal v with
  | None => h
  | Some data => write_snapshot fails data snapshot h
  end.

(** What the other goroutines do to the hub while a broadcast is under
    way: the HTTP handler adds a connection it has just accepted, the reader
    goroutine of a connection removes it when the peer goes away. *)
Inductive interference :=
| OtherAdd (c : wsConn)
| OtherRemove (c : wsConn).

Definition interfere (h : hub) (a : interference) : hub :=
  match a with
  | OtherAdd c => add h c
  | OtherRemove c => remove h c
  end.

(** The second loop of [broadcastJSON] again, with the hub operations of
    the other goroutines that take effect after each write: the snapshot
    pairs every connection with them. *)
Fixpoint write_snapshot_among (fails : wsConn -> bool) (data : list Z)
    (snapshot : list (wsConn * list interference)) (h : hub) : hub :=
  match snapshot with
  | [] => h
  | (c, others) :: rest =>
      let '(h1, err) := writeText fails h c data in
      let h2 := if err then remove h1 c else h1 in
      write_snapshot_among fails data rest (fold_left interfere others h2)
  end.

(** The HTTP handler adds only connections it has just created, so a
    connection of the snapshot is never added again. *)
Definition never_added (c : wsConn)
    (snapshot : list (wsConn * list interference)) : Prop :=
  Forall (fun p => OtherAdd c ∉ p.2) snapshot.

(** ** Pulse scheduler: [startPulseLoop] *)

Record pulseMessage := mkPulse {
  Type_ : string;
  Seq : Z;        (* uint64 *)
  PeriodMS : Z;   (* int64 *)
  NowMS : Z;      (* int64 *)
  NextMS : Z      (* int64 *)
}.

(** A [time.Time] obtained from [time.Now()] carries a wall-clock reading
    and a monotonic reading, both in nanoseconds here (the wall reading
    counted from the Unix epoch).  [Add] moves both, [UnixMilli] looks at
    the wall reading, [Until] compares monotonic readings.  Times stay far
    from the ends of the range Go can represent, so no operation on them
    saturates. *)
Record Time := mkTime { wall : Z; mono : Z }.

(** A [time.Duration] is a count of nanoseconds. *)
Definition Duration := Z.
Definition Millisecond : Duration := 1000000.
Definition Second : Duration := 1000000000.

Definition Add (t : Time) (d : Duration) : Time :=
  {| wall := wall t + d; mono := mono t + d |}.

(** [t.UnixMilli()]: whole milliseconds since the epoch, rounded down. *)
Definition UnixMilli (t : Time) : Z := wall t / 1000000.

(** [d.Milliseconds()]: integer division of an [int64], towards zero. *)
Definition Milliseconds (d : Duration) : Z := Z.quot d 1000000.

(** [time.Until(t)], where [now] is the clock reading the call takes. *)
Definition Until (t now : Time) : Duration := mono t - mono now.

(** The loop reads the clock at four places.  The machine below consumes
    one clock reading per step, so that a run is a fold over the sequence
    of readings the operating system hands out.

    - [AtFirstNow]: line 194, [now := time.Now()] before the first
      broadcast ([next] was set from the reading before it);
    - [AtUntil]: line 209, [time.Until(next)] at the head of the loop,
      followed by the sleep;
    - [AtNow]: line 214, [now = time.Now()], followed by the broadcast and
      the two updates;
    - [AtCatchUp]: line 227, the test of the inner [for]. *)
Inductive point := AtFirstNow | AtUntil | AtNow | AtCatchUp.

Record loop := mkLoop {
  at_ : point;
  seq : Z;
  next : Time
}.

(** [period <= 0] is replaced by one second. *)
Definition effective_period (period : Duration) : Duration :=
  if period <=? 0 then Second else period.

(** Lines 183-189: the state once [next := time.Now().Add(period)] has
    read the clock ([r0]). *)
Definition start (period : Duration) (r0 : Time) : loop :=
  let period := effective_period period in
  {| at_ := AtFirstNow; seq := 0; next := Add r0 period |}.

(** One step: the reading [r] is what the clock returns at the point the
    loop stands at.  The result holds the message handed to
    [broadcastJSON], if the step broadcasts. *)
Definition step (period : Duration) (s : loop) (r : Time)
    : loop * option pulseMessage :=
  let period := effective_period period in
  let periodMS := Milliseconds period in
  match at_ s with
  | AtFirstNow =>
      let now := r in
      let msg := {| Type_ := "pulse"; Seq := seq s; PeriodMS := periodMS;
                    NowMS := UnixMilli now; NextMS := UnixMilli (next s) |} in
      ({| at_ := AtUntil; seq := uint64 (seq s + 1); next := next s |},
       Some msg)
  | AtUntil =>
      (* sleepFor := time.Until(next); the sleep itself only lets time
         pass, which shows in the readings that follow *)
      ({| at_ := AtNow; seq := seq s; next := next s |}, None)
  | AtNow =>
      let now := r in
      let msg := {| Type_ := "pulse"; Seq := seq s; PeriodMS := periodMS;
                    NowMS := UnixMilli now;
                    NextMS := UnixMilli (Add (next s) period) |} in
      ({| at_ := AtCatchUp; seq := uint64 (seq s + 1);
          next := Add (next s) period |},
       Some msg)
  | AtCatchUp =>
      if Until (next s) r <=? 0
      then ({| at_ := AtCatchUp; seq := seq s; next := Add (next s) period |},
            None)
      else ({| at_ := AtUntil; seq := seq s; next := next s |}, None)
  end.

(** The messages broadcast while the clock hands out [readings], oldest
    first, together with the state reached. *)
Fixpoint run_from (period : Duration) (s : loop) (readings : list Time)
    : loop * list pulseMessage :=
  match readings with
  | [] => (s, [])
  | r :: rest =>
      let '(s1, out) := step period s r in
      let '(s2, outs) := run_from period s1 rest in
      (s2, match out with Some m => m :: outs | None => outs end)
  end.

Definition startPulseLoop (period : Duration) (readings : list Time)
    : list pulseMessage :=
  match readings with
  | [] => []
  | r0 :: rest => snd (run_from period (start period r0) rest)
  end.

(** The instant the message that state [s] is about to broadcast was
    scheduled for: the very first clock reading for seq 0 ([next] is that
    reading plus one period), [next] itself inside the loop. *)
Definition nominal (period : Duration) (s : loop) : Time :=
  match at_ s with
  | AtFirstNow => Add (next s) (- effective_period period)
  | _ => next s
  end.

(** The [next_ms] the loop would announce if it broadcast from state [s]
    without moving [next] any further. *)
Definition announce (period : Duration) (s : loop) : Z :=
  match at_ s with
  | AtFirstNow => UnixMilli (next s)
  | _ => UnixMilli (Add (next s) (effective_period period))
  end.

(** The number of scheduled instants, from [next] on, that lie at or before
    the clock reading [r]: what the inner loop has to skip. *)
Definition missed_ticks (period : Duration) (s : loop) (r : Time) : Z :=
  Z.max 0 ((mono r - mono (next s)) / effective_period period + 1).

(** States the loop can be in. *)
Inductive reachable (period : Duration) : loop -> Prop :=
| reach_start r0 : reachable period (start period r0)
| reach_step s r : reachable period s -> reachable period (fst (step period s r)).

(** ** Reading a frame back *)

(** The receiving side of [writeText], as far as the server's frames need
    it: a first byte [finAndText], the length bytes, no mask, the payload.
    The result is the payload and the bytes that follow the frame. *)
Definition decode_frame (bs : list Z) : option (list Z * list Z) :=
  match bs with
  | [] => None
  | b0 :: rest =>
      if negb (b0 =? finAndText) then None
      else
        match rest, read_length rest with
        | b1 :: _, Some n =>
            let header := if b1 <? 126 then 1%nat
                          else if b1 =? 126 then 3%nat else 9%nat in
            let body := drop header rest in
            if Z.of_nat (length body) <? n then None
            else Some (take (Z.to_nat n) body, drop (Z.to_nat n) body)
        | _, _ => None
        end
  end.

(** ** Handshake: [containsToken], [wsAccept], [upgradeWebSocket] *)

(** The functions of Go's library that the handshake calls and that are
    not written out here: [strings.TrimSpace], [strings.EqualFold],
    [sha1.Sum] (on the bytes of a string) and
    [base64.StdEncoding.EncodeToString]. *)
Class Library := {
  TrimSpace : string -> string;
  EqualFold : string -> string -> bool;
  sha1_Sum : string -> list Z;
  base64_EncodeToString : list Z -> string
}.

(** [strings.Split(s, sep)] for a separator of one byte: the pieces between
    the separators, in order; one more piece than there are separators. *)
Fixpoint Split (s : string) (sep : Ascii.ascii) : list string :=
  match s with
  | EmptyString => [EmptyString]
  | String c rest =>
      match Split rest sep with
      | [] => [String c EmptyString]
      | part :: parts =>
          if Ascii.eqb c sep then EmptyString :: part :: parts
          else String c part :: parts
      end
  end.

Definition comma : Ascii.ascii := Ascii.ascii_of_nat 44.

Definition containsToken `{Library} (headerVal want : string) : bool :=
  existsb (fun part => EqualFold (TrimSpace part) want) (Split headerVal comma).

Definition wsGUID : string := "258EAFA5-E914-47DA-95CA-C5AB0DC85B11".

Definition wsAccept `{Library} (key : string) : string :=
  base64_EncodeToString (sha1_Sum (key ++ wsGUID)).

(** The four headers [upgradeWebSocket] reads with [r.Header.Get]; a header
    that is absent reads as the empty string. *)
Record Request := mkRequest {
  Connection : string;
  Upgrade : string;
  Sec_WebSocket_Version : string;
  Sec_WebSocket_Key : string
}.

(** How the [http.ResponseWriter] and the connection behind it respond:
    whether the writer is an [http.Hijacker], and whether [Hijack],
    [WriteString] and [Flush] return an error. *)
Record ResponseWriter := mkWriter {
  is_hijacker : bool;
  hijack_fails : bool;
  write_fails : bool;
  flush_fails : bool
}.

Inductive upgradeError :=
| MissingConnectionUpgrade
| MissingWebsocketUpgrade
| UnsupportedWebsocketVersion
| MissingWebsocketKey
| NoHijacking
| HijackConnection
| WriteHandshake
| FlushHandshake.

(** What a call of [upgradeWebSocket] did to the connection: whether it was
    hijacked, what was handed to [rw.WriteString] and flushed, whether it
    was closed. *)
Record upgradeEffects := mkEffects {
  hijacked : bool;
  flushed : option string;
  conn_closed : bool
}.

Definition CRLF : string :=
  String (Ascii.ascii_of_nat 13) (String (Ascii.ascii_of_nat 10) EmptyString).

Definition handshake_response (accept : string) : string :=
  ("HTTP/1.1 101 Switching Protocols" ++ CRLF ++
   "Upgrade: websocket" ++ CRLF ++
   "Connection: Upgrade" ++ CRLF ++
   "Sec-WebSocket-Accept: " ++ accept ++ CRLF ++ CRLF)%string.

(** [upgradeWebSocket]: [None] with the error, or [Some tt] for the new
    [*wsConn], together with what happened to the connection. *)
Definition upgradeWebSocket `{Library} (w : ResponseWriter) (r : Request)
    : (upgradeError + unit) * upgradeEffects :=
  let untouched := mkEffects false None false in
  if negb (containsToken (Connection r) "Upgrade") then
    (inl MissingConnectionUpgrade, untouched)
  else if negb (EqualFold (Upgrade r) "websocket") then
    (inl MissingWebsocketUpgrade, untouched)
  else if negb (String.eqb (Sec_WebSocket_Version r) "13") then
    (inl UnsupportedWebsocketVersion, untouched)
  else
    let key := TrimSpace (Sec_WebSocket_Key r) in
    if String.eqb key "" then (inl MissingWebsocketKey, untouched)
    else if negb (is_hijacker w) then (inl NoHijacking, untouched)
    else if hijack_fails w then (inl HijackConnection, untouched)
    else
      let accept := wsAccept key in
      if write_fails w then
        (inl WriteHandshake, mkEffects true None true)
      else if flush_fails w then
        (inl FlushHandshake, mkEffects true None true)
      else
        (inr tt, mkEffects true (Some (handshake_response accept)) false).

(** The [/ws] handler of [main] up to the point where it starts the reader
    goroutine: [c] is the [*wsConn] that a successful upgrade allocates.
    The result is the hub and whether the handler answered with
    [http.Error(..., http.StatusBadRequest)]. *)
Definition handle_ws `{Library} (h : hub) (w : ResponseWriter) (r : Request)
    (c : wsConn) : hub * option upgradeError :=
  match fst (upgradeWebSocket w r) with
  | inl err => (h, Some err)
  | inr _ => (add h c, None)
  end.

(** ** Configuration: [parsePeriodMS] *)

(** [int64(x)]: the value of the low 64 bits, read as a signed number. *)
Definition int64 (x : Z) : Z := (x + 2 ^ 63) mod 2 ^ 64 - 2 ^ 63.

Definition plus_sign : Ascii.ascii := Ascii.ascii_of_nat 43.
Definition minus_sign : Ascii.ascii := Ascii.ascii_of_nat 45.

Definition digit (c : Ascii.ascii) : option Z :=
  let n := Z.of_nat (Ascii.nat_of_ascii c) in
  if (48 <=? n) && (n <=? 57) then Some (n - 48) else None.

Fixpoint parse_digits (s : string) (acc : Z) : option Z :=
  match s with
  | EmptyString => Some acc
  | String c rest =>
      match digit c with
      | Some d => parse_digits rest (acc * 10 + d)
      | None => None
      end
  end.

(** [strconv.ParseInt(s, 10, 64)]: [None] when it returns an error (empty
    input, a sign alone, a byte that is no decimal digit, a value outside
    the range of [int64]). *)
Definition ParseInt (s : string) : option Z :=
  match s with
  | EmptyString => None
  | String c rest =>
      let neg := Ascii.eqb c minus_sign in
      let body := if Ascii.eqb c plus_sign || Ascii.eqb c minus_sign then rest else s in
      match body with
      | EmptyString => None
      | _ =>
          match parse_digits body 0 with
          | None => None
          | Some un =>
              if neg then (if un <=? 2 ^ 63 then Some (- un) else None)
              else (if un <? 2 ^ 63 then Some un else None)
          end
      end
  end.

(** [parsePeriodMS], given what [os.Getenv("PULSE_PERIOD_MS")] returns.
    The product [time.Duration(ms) * time.Millisecond] is an [int64]
    product and wraps. *)
Definition parsePeriodMS `{Library} (env : string) : Duration :=
  let raw := TrimSpace env in
  if String.eqb raw "" then Second
  else
    match ParseInt raw with
    | None => Second
    | Some ms =>
        if ms <=? 0 then Second
        else int64 (ms * Millisecond)
    end.

(** ** Example inputs *)

(** Three connections, of which the second one cannot be written to. *)
Definition example_hub : hub :=
  add (add (add newHub 1%positive) 2%positive) 3%positive.

Definition example_fails (c : wsConn) : bool := Pos.eqb c 2.

(** A serializer for values that are bytes already. *)
Definition example_marshal (v : list Z) : option (list Z) := Some v.

(** The clock [us] microseconds after the process started: the wall clock
    stood at 1739700000000 ms then, the monotonic clock at 7 ms, and both
    advance together. *)
Definition clock_after (us : Z) : Time :=
  {| wall := 1739700000000000000 + us * 1000; mono := 7000000 + us * 1000 |}.

(** A period of one second.  The loop is entered after 40 us, sleeps, and
    is woken 1.2 ms after the instant it asked for. *)
Definition late_wakeup : list Time :=
  [clock_after 0; clock_after 3; clock_after 40; clock_after 1001200].

(** Connection 3 goes away while connection 1 is written, and a new
    connection 4 is accepted while connection 3 is written. *)
Definition busy_snapshot : list (wsConn * list interference) :=
  [(1%positive, [OtherRemove 3%positive]);
   (3%positive, [OtherAdd 4%positive]);
   (2%positive, [])].

(** Stand-ins for the library in the examples, whose header values hold no
    white space and are spelled in the expected case: there
    [strings.TrimSpace] returns its argument and [strings.EqualFold] is
    equality.  The digest and its encoding are not computed. *)
Definition exampleLibrary : Library :=
  {| TrimSpace := fun s => s;
     EqualFold := String.eqb;
     sha1_Sum := fun _ => replicate 20 0;
     base64_EncodeToString := fun _ => EmptyString |}.

(** The headers of a browser's upgrade request. *)
Definition browser_request : Request :=
  {| Connection := "keep-alive,Upgrade";
     Upgrade := "websocket";
     Sec_WebSocket_Version := "13";
     Sec_WebSocket_Key := "dGhlIHNhbXBsZSBub25jZQ==" |}.

(** A writer that can be hijacked and a connection that takes the
    response. *)
Definition willing_writer : ResponseWriter :=
  {| is_hijacker := true; hijack_fails := false;
     write_fails := false; flush_fails := false |}.

(** The loop about to read the clock for its second broadcast, scheduled
    for one second after the start. *)
Definition waking : loop :=
  {| at_ := AtNow; seq := 1; next := clock_after 1000000 |}.

(** The loop after its third broadcast, with the next tick scheduled for
    500 ms after the start. *)
Definition behind_schedule : loop :=
  {| at_ := AtCatchUp; seq := 3; next := clock_after 500000 |}.

(** A period of 250 ms.  The process is held up during the first sleep and
    runs again 300 ms after the instant it asked for; the inner loop then
    skips the tick it missed, and the next wake-up is on time. *)
Definition overslept : list Time :=
  [clock_after 0; clock_after 5; clock_after 30; clock_after 550000;
   clock_after 550100; clock_after 550200; clock_after 550300;
   clock_after 750050].

End Server.

(* ===================================================================== *)
(** * Part II: the TypeScript client                                      *)
(* ===================================================================== *)

Module Client.

(** ** Values *)

(** A JavaScript [number] is an IEEE 754 binary64 value: Rocq's primitive
    [float].  What [JSON.parse] returns, and what a property read on it
    returns, is any JavaScript value; the fields of an object are listed
    with their keys, each key once. *)
#[warnings="-register-all"] Inductive jsvalue :=
| JUndefined
| JNull
| JBool (b : bool)
| JNumber (x : float)
| JString (s : string)
| JArray (items : list jsvalue)
| JObject (fields : list (string * jsvalue)).

(** The two conversions of the language that the client relies on through
    [Number(v)] and that are not written out here: [StringToNumber] on
    strings, and the string an array or object converts to. *)
Class Host := {
  StringToNumber : string -> float;
  ToPrimitive : jsvalue -> string
}.

Fixpoint lookup_field (k : string) (fields : list (string * jsvalue)) : jsvalue :=
  match fields with
  | [] => JUndefined
  | (k', v) :: rest => if String.eqb k k' then v else lookup_field k rest
  end.

(** [v[k]] for the keys the client reads; a missing property reads as
    [undefined]. *)
Definition prop (v : jsvalue) (k : string) : jsvalue :=
  match v with
  | JObject fields => lookup_field k fields
  | _ => JUndefined
  end.

(** [Number(v)]. *)
Definition Number `{Host} (v : jsvalue) : float :=
  match v with
  | JUndefined => nan
  | JNull => zero
  | JBool true => one
  | JBool false => zero
  | JNumber x => x
  | JString s => StringToNumber s
  | JArray _ | JObject _ => StringToNumber (ToPrimitive v)
  end.

Definition finiteOr `{Host} (v : jsvalue) (fallback : float) : float :=
  let n := Number v in
  if is_finite n then n else fallback.

(** [Math.max] and [Math.min] on two arguments: [NaN] if either is, and
    [+0] counts as larger than [-0]. *)
Definition Math_max (a b : float) : float :=
  if is_nan a || is_nan b then nan
  else if PrimFloat.ltb a b then b
  else if PrimFloat.ltb b a then a
  else if get_sign a then b else a.

Definition Math_min (a b : float) : float :=
  if is_nan a || is_nan b then nan
  else if PrimFloat.ltb a b then a
  else if PrimFloat.ltb b a then b
  else if get_sign a then a else b.

Definition clamp (v lo hi : float) : float := Math_min hi (Math_max lo v).

Definition isPulseMessage (v : jsvalue) : bool :=
  match v with
  | JObject fields =>
      match lookup_field "type" fields with
      | JString s => String.eqb s "pulse"
      | _ => false
      end
  | _ => false   (* an array has no own property "type" *)
  end.

(** ** Records *)

Module LastPulse.
Record t := mk {
  seq : jsvalue;          (* stored as received *)
  serverNowMs : float;
  serverNextMs : float;
  periodMs : float;
  arrivalMonoMs : float
}.
End LastPulse.

Module PulseEventDetail.
Record t := mk {
  seq : jsvalue;
  periodMs : float;
  serverNowMs : float;
  serverNextMs : float;
  arrivalMonoMs : float;
  predictedArrivalMonoMs : option float;
  errorMs : option float;
  biasMs : float;
  stableCount : Z;
  locked : bool;
  estimatedServerNowMs : option float;
  elapsedSinceLockMs : option float
}.
End PulseEventDetail.

Inductive Event :=
| StatusEvent (connected : bool)
| PulseEvent (detail : PulseEventDetail.t)
| LockEvent (locked : bool).

(** The read-only fields the constructor stores.  The two window sizes are
    whole numbers (the constructor applies [Math.floor]) and are only
    compared with array lengths and counts, so they are integers here; the
    properties below hold for all values of them, also for values the
    constructor would have raised to 1 or to 0. *)
Record Options := mkOptions {
  thresholdMs : float;
  requiredStablePulses : Z;
  allowedUnstablePulses : Z;
  beta : float;
  maxBiasCorrectionMs : float;
  stickyLock : bool
}.

(** The mutable fields.  [ws] is [true] when [this.ws] holds a socket and
    [false] when it is [null]. *)
Record PulseSyncClient := mkClient {
  ws : bool;
  connected : bool;
  lastPulse : option LastPulse.t;
  lastPredictedArrivalMono : option float;
  arrivalBiasMs : float;
  stableCount : Z;
  recentStability : list bool;
  preserveStateOnClose : bool;
  lockOriginMonoMs : option float;
  lockOriginServerMs : option float;
  locked : bool;
  estimatedServerNowMs : option float
}.

Definition initial : PulseSyncClient :=
  {| ws := false; connected := false; lastPulse := None;
     lastPredictedArrivalMono := None; arrivalBiasMs := zero;
     stableCount := 0; recentStability := [];
     preserveStateOnClose := false;
     lockOriginMonoMs := None; lockOriginServerMs := None;
     locked := false; estimatedServerNowMs := None |}.

(** Field assignments. *)
Definition set_ws (b : bool) (c : PulseSyncClient) : PulseSyncClient :=
  mkClient b (connected c) (lastPulse c) (lastPredictedArrivalMono c)
    (arrivalBiasMs c) (stableCount c) (recentStability c)
    (preserveStateOnClose c) (lockOriginMonoMs c) (lockOriginServerMs c)
    (locked c) (estimatedServerNowMs c).

Definition set_connected (b : bool) (c : PulseSyncClient) : PulseSyncClient :=
  mkClient (ws c) b (lastPulse c) (lastPredictedArrivalMono c)
    (arrivalBiasMs c) (stableCount c) (recentStability c)
    (preserveStateOnClose c) (lockOriginMonoMs c) (lockOriginServerMs c)
    (locked c) (estimatedServerNowMs c).

Definition set_lastPulse (p : option LastPulse.t) (c : PulseSyncClient) : PulseSyncClient :=
  mkClient (ws c) (connected c) p (lastPredictedArrivalMono c)
    (arrivalBiasMs c) (stableCount c) (recentStability c)
    (preserveStateOnClose c) (lockOriginMonoMs c) (lockOriginServerMs c)
    (locked c) (estimatedServerNowMs c).

Definition set_lastPredictedArrivalMono (p : option float) (c : PulseSyncClient)
    : PulseSyncClient :=
  mkClient (ws c) (connected c) (lastPulse c) p
    (arrivalBiasMs c) (stableCount c) (recentStability c)
    (preserveStateOnClose c) (lockOriginMonoMs c) (lockOriginServerMs c)
    (locked c) (estimatedServerNowMs c).

Definition set_arrivalBiasMs (x : float) (c : PulseSyncClient) : PulseSyncClient :=
  mkClient (ws c) (connected c) (lastPulse c) (lastPredictedArrivalMono c)
    x (stableCount c) (recentStability c)
    (preserveStateOnClose c) (lockOriginMonoMs c) (lockOriginServerMs c)
    (locked c) (estimatedServerNowMs c).

Definition set_stability (q : list bool) (n : Z) (c : PulseSyncClient)
    : PulseSyncClient :=
  mkClient (ws c) (connected c) (lastPulse c) (lastPredictedArrivalMono c)
    (arrivalBiasMs c) n q
    (preserveStateOnClose c) (lockOriginMonoMs c) (lockOriginServerMs c)
    (locked c) (estimatedServerNowMs c).

Definition set_preserveStateOnClose (b : bool) (c : PulseSyncClient)
    : PulseSyncClient :=
  mkClient (ws c) (connected c) (lastPulse c) (lastPredictedArrivalMono c)
    (arrivalBiasMs c) (stableCount c) (recentStability c)
    b (lockOriginMonoMs c) (lockOriginServerMs c)
    (locked c) (estimatedServerNowMs c).

Definition set_lockOrigin (m s : option float) (c : PulseSyncClient)
    : PulseSyncClient :=
  mkClient (ws c) (connected c) (lastPulse c) (lastPredictedArrivalMono c)
    (arrivalBiasMs c) (stableCount c) (recentStability c)
    (preserveStateOnClose c) m s
    (locked c) (estimatedServerNowMs c).

Definition set_locked (b : bool) (c : PulseSyncClient) : PulseSyncClient :=
  mkClient (ws c) (connected c) (lastPulse c) (lastPredictedArrivalMono c)
    (arrivalBiasMs c) (stableCount c) (recentStability c)
    (preserveStateOnClose c) (lockOriginMonoMs c) (lockOriginServerMs c)
    b (estimatedServerNowMs c).

Definition set_estimatedServerNowMs (x : option float) (c : PulseSyncClient)
    : PulseSyncClient :=
  mkClient (ws c) (connected c) (lastPulse c) (lastPredictedArrivalMono c)
    (arrivalBiasMs c) (stableCount c) (recentStability c)
    (preserveStateOnClose c) (lockOriginMonoMs c) (lockOriginServerMs c)
    (locked c) x.

(** ** Operations *)

(** [connect()]: a second call while a socket exists does nothing.  The
    three listeners it registers are [onOpen], [onClose] and [onMessage]
    below; the browser runs them later, one at a time. *)
Definition connect (c : PulseSyncClient) : PulseSyncClient :=
  if ws c then c else set_ws true c.

Definition onOpen (c : PulseSyncClient) : PulseSyncClient * list Event :=
  (set_connected true c, [StatusEvent true]).

Definition clearLockOrigin (c : PulseSyncClient) : PulseSyncClient :=
  set_lockOrigin None None c.

(** The [close] listener. *)
Definition onClose (c : PulseSyncClient) : PulseSyncClient * list Event :=
  let preserveState := preserveStateOnClose c in
  let c := set_preserveStateOnClose false c in
  let c := set_connected false c in
  let c := set_ws false c in
  let c :=
    if negb preserveState then
      let c := set_locked false c in
      let c := set_stability [] 0 c in
      clearLockOrigin c
    else c in
  (c, [StatusEvent false]).

(** [disconnect(preserveLock)].  [this.ws.close()] makes the browser run
    the [close] listener at some later time. *)
Definition disconnect (preserveLock : bool) (c : PulseSyncClient) : PulseSyncClient :=
  if negb (ws c) then c
  else
    let c := set_preserveStateOnClose (preserveLock && locked c) c in
    let c := set_ws false c in
    set_connected false c.

(** [serverNowMs()]; [now] is what [performance.now()] returns if the call
    gets to read it. *)
Definition serverNowMs (c : PulseSyncClient) (now : float) : option float :=
  if negb (locked c) then None
  else
    match lockOriginMonoMs c, lockOriginServerMs c with
    | Some originMono, Some originServer =>
        let elapsed := PrimFloat.sub now originMono in
        Some (PrimFloat.add originServer elapsed)
    | _, _ =>
        match lastPulse c with
        | None => None
        | Some lp =>
            let elapsed := PrimFloat.sub now (LastPulse.arrivalMonoMs lp) in
            Some (PrimFloat.add (LastPulse.serverNowMs lp) elapsed)
        end
    end.

Definition elapsedSinceLockMs (c : PulseSyncClient) (now : float) : option float :=
  if negb (locked c) then None
  else
    match lockOriginMonoMs c with
    | None => None
    | Some originMono => Some (Math_max zero (PrimFloat.sub now originMono))
    end.

Definition predictNextArrivalMonoMs (c : PulseSyncClient) : option float :=
  match lastPulse c with
  | None => None
  | Some lp =>
      Some (PrimFloat.add (PrimFloat.add (LastPulse.arrivalMonoMs lp) (LastPulse.periodMs lp))
                          (arrivalBiasMs c))
  end.

Definition stabilityTarget (o : Options) : Z :=
  Z.max 1 (requiredStablePulses o - allowedUnstablePulses o).

Definition captureLockOrigin (arrival : float) (c : PulseSyncClient) : PulseSyncClient :=
  match lastPulse c with
  | None => c
  | Some lp => set_lockOrigin (Some arrival) (Some (LastPulse.serverNowMs lp)) c
  end.

Definition updateStability (o : Options) (errorMs : option float)
    (c : PulseSyncClient) : PulseSyncClient :=
  match errorMs with
  | None => c
  | Some e =>
      let isStable := PrimFloat.leb (PrimFloat.abs e) (thresholdMs o) in
      let q := recentStability c ++ [isStable] in
      let q := if Z.of_nat (length q) >? requiredStablePulses o then tail q else q in
      set_stability q (Z.of_nat (length (filter (fun b => b = true) q))) c
  end.

(** The three readings of [performance.now()] one call of [handlePulse]
    can take: on arrival, inside [serverNowMs()], inside
    [elapsedSinceLockMs()]. *)
Record Readings := mkReadings {
  at_arrival : float;
  at_projection : float;
  at_elapsed : float
}.

Definition handlePulse `{Host} (o : Options) (c : PulseSyncClient)
    (pulse : jsvalue) (t : Readings) : PulseSyncClient * list Event :=
  if stickyLock o && locked c then (c, [])
  else
    let arrival := at_arrival t in
    let previousPrediction := lastPredictedArrivalMono c in
    let errorMs :=
      match previousPrediction with
      | Some p => Some (PrimFloat.sub arrival p)
      | None => None
      end in
    let c :=
      match errorMs with
      | Some e =>
          let correction :=
            clamp e (PrimFloat.opp (maxBiasCorrectionMs o)) (maxBiasCorrectionMs o) in
          set_arrivalBiasMs
            (PrimFloat.add (arrivalBiasMs c) (PrimFloat.mul (beta o) correction)) c
      | None => c
      end in
    let period := finiteOr (prop pulse "period_ms") 1000%float in
    let lp := {| LastPulse.seq := prop pulse "seq";
                 LastPulse.serverNowMs := finiteOr (prop pulse "now_ms") zero;
                 LastPulse.serverNextMs := finiteOr (prop pulse "next_ms") zero;
                 LastPulse.periodMs := period;
                 LastPulse.arrivalMonoMs := arrival |} in
    let c := set_lastPulse (Some lp) c in
    let c := set_lastPredictedArrivalMono (predictNextArrivalMonoMs c) c in
    let c := updateStability o errorMs c in
    let wasLocked := locked c in
    let c :=
      set_locked
        ((Z.of_nat (length (recentStability c)) >=? requiredStablePulses o)
         && (stableCount c >=? stabilityTarget o)) c in
    let '(c, lockEvents) :=
      if negb wasLocked && locked c then
        let c := captureLockOrigin arrival c in
        let c := if stickyLock o then disconnect true c else c in
        (c, [LockEvent true])
      else if wasLocked && negb (locked c) then
        (clearLockOrigin c, [LockEvent false])
      else (c, []) in
    let c := set_estimatedServerNowMs (serverNowMs c (at_projection t)) c in
    (c,
     lockEvents ++
     [PulseEvent
        {| PulseEventDetail.seq := prop pulse "seq";
           PulseEventDetail.periodMs := period;
           PulseEventDetail.serverNowMs := LastPulse.serverNowMs lp;
           PulseEventDetail.serverNextMs := LastPulse.serverNextMs lp;
           PulseEventDetail.arrivalMonoMs := arrival;
           PulseEventDetail.predictedArrivalMonoMs := previousPrediction;
           PulseEventDetail.errorMs := errorMs;
           PulseEventDetail.biasMs := arrivalBiasMs c;
           PulseEventDetail.stableCount := stableCount c;
           PulseEventDetail.locked := locked c;
           PulseEventDetail.estimatedServerNowMs := estimatedServerNowMs c;
           PulseEventDetail.elapsedSinceLockMs := elapsedSinceLockMs c (at_elapsed t) |}]).

(** The [message] listener.  [parsed] is the outcome of
    [JSON.parse(ev.data)]: [None] when it throws. *)
Definition onMessage `{Host} (o : Options) (c : PulseSyncClient)
    (parsed : option jsvalue) (t : Readings) : PulseSyncClient * list Event :=
  match parsed with
  | None => (c, [])
  | Some msg =>
      if negb (isPulseMessage msg) then (c, [])
      else handlePulse o c msg t
  end.

(** ** Reachable states *)

(** Everything that can happen to a client, in any order: the public
    methods and the three listeners.  Code outside the class is assumed
    neither to assign the client's public fields nor to call back into the
    client from a listener of its events. *)
Inductive reachable `{Host} (o : Options) : PulseSyncClient -> Prop :=
| reach_initial : reachable o initial
| reach_connect c : reachable o c -> reachable o (connect c)
| reach_disconnect c preserveLock :
    reachable o c -> reachable o (disconnect preserveLock c)
| reach_open c : reachable o c -> reachable o (fst (onOpen c))
| reach_close c : reachable o c -> reachable o (fst (onClose c))
| reach_message c parsed t :
    reachable o c -> reachable o (fst (onMessage o c parsed t)).

(** The lock decision of the code, read on a state. *)
Definition lock_condition (o : Options) (c : PulseSyncClient) : Prop :=
  Z.of_nat (length (recentStability c)) >= requiredStablePulses o /\
  stableCount c >= stabilityTarget o.

(** The lock decision as the specification words it. *)
Definition spec_lock_condition (o : Options) (c : PulseSyncClient) : Prop :=
  Z.of_nat (length (recentStability c)) >= requiredStablePulses o /\
  stableCount c >= requiredStablePulses o - allowedUnstablePulses o.

(** [locked] implies that both halves of the lock origin are set. *)
Definition lock_origin_present (c : PulseSyncClient) : Prop :=
  locked c = true ->
  exists originMono originServer,
    lockOriginMonoMs c = Some originMono /\
    lockOriginServerMs c = Some originServer.




(** The client after the [message] listener has run on each inbound
    message in turn, each with the clock readings its handling takes. *)
Fixpoint deliver `{Host} (o : Options) (c : PulseSyncClient)
    (inbound : list (option jsvalue * Readings)) : PulseSyncClient :=
  match inbound with
  | [] => c
  | (parsed, t) :: rest => deliver o (fst (onMessage o c parsed t)) rest
  end.

(** The three timing fields of a stored pulse are finite numbers. *)
Definition timing_finite (lp : LastPulse.t) : Prop :=
  is_finite (LastPulse.serverNowMs lp) = true /\
  is_finite (LastPulse.serverNextMs lp) = true /\
  is_finite (LastPulse.periodMs lp) = true.

(** The number of stable entries of a window. *)
Definition stable_entries (q : list bool) : Z :=
  Z.of_nat (length (filter (fun b => b = true) q)).

(** ** Example inputs *)

(** A host for the examples: their messages carry numbers only, so neither
    conversion is ever consulted. *)
Definition exampleHost : Host :=
  {| StringToNumber := fun _ => nan; ToPrimitive := fun _ => EmptyString |}.

(** The options the constructor stores when it is given none ([beta] is
    the double nearest to 0.05). *)
Definition defaultOptions : Options :=
  {| thresholdMs := 5; requiredStablePulses := 15; allowedUnstablePulses := 2;
     beta := 0x1.999999999999ap-5; maxBiasCorrectionMs := 25; stickyLock := true |}.

(** [{requiredStablePulses: 2, allowedUnstablePulses: 2, stickyLock: false}]:
    as many outliers allowed as the window is long. *)
Definition tolerantOptions : Options :=
  {| thresholdMs := 5; requiredStablePulses := 2; allowedUnstablePulses := 2;
     beta := 0x1.999999999999ap-5; maxBiasCorrectionMs := 25; stickyLock := false |}.

(** [{requiredStablePulses: 2, allowedUnstablePulses: 0}]. *)
Definition quickOptions : Options :=
  {| thresholdMs := 5; requiredStablePulses := 2; allowedUnstablePulses := 0;
     beta := 0x1.999999999999ap-5; maxBiasCorrectionMs := 25; stickyLock := true |}.

(** A well-formed pulse of a server with a period of one second. *)
Definition pulse_at (seq now : float) : jsvalue :=
  JObject [("type", JString "pulse"); ("seq", JNumber seq);
           ("period_ms", JNumber 1000); ("now_ms", JNumber now);
           ("next_ms", JNumber (PrimFloat.add now 1000))].



(** All readings of one call of the handler show the same time. *)
Definition arriving (t : float) : Readings := mkReadings t t t.

(** A client whose socket has opened. *)
Definition connected_client : PulseSyncClient := fst (onOpen (connect initial)).

(** A connected client that has processed one pulse. *)
Definition after_first_pulse : PulseSyncClient :=
  fst (onMessage (H := exampleHost) defaultOptions connected_client
         (Some (pulse_at 0 1739700000000)) (arriving 100)).

(** Three pulses, the second and the third far from their predictions. *)
Definition after_two_outliers : PulseSyncClient :=
  let c := connected_client in
  let c := fst (onMessage (H := exampleHost) tolerantOptions c
                  (Some (pulse_at 0 1739700000000)) (arriving 100)) in
  let c := fst (onMessage (H := exampleHost) tolerantOptions c
                  (Some (pulse_at 1 1739700001000)) (arriving 1600)) in
  fst (onMessage (H := exampleHost) tolerantOptions c
         (Some (pulse_at 2 1739700002000)) (arriving 3000)).

(** Three pulses exactly one period apart: the client locks, and being
    sticky it disconnects. *)
Definition after_three_on_time : PulseSyncClient :=
  fst (onMessage (H := exampleHost) quickOptions
         (fst (onMessage (H := exampleHost) quickOptions
                 (fst (onMessage (H := exampleHost) quickOptions
                         connected_client
                         (Some (pulse_at 0 1739700000000)) (arriving 100)))
                 (Some (pulse_at 1 1739700001000)) (arriving 1100)))
         (Some (pulse_at 2 1739700002000)) (arriving 2100)).


(** Two pulses and a payload that is no pulse. *)
Definition two_pulses_and_noise : list (option jsvalue * Readings) :=
  [(Some (pulse_at 0 1739700000000), arriving 100);
   (None, arriving 600);
   (Some (pulse_at 1 1739700001000), arriving 1100)].


End Client.


(* ===================================================================== *)
(** * Part III: properties of the server                                  *)
(* ===================================================================== *)

Section FrameCodec.
Import Server.

Lemma byte_small n : 0 <= n < 256 -> byte n = n.
Proof. intros Hn. unfold byte. now apply Z.mod_small. Qed.

(** Shifting and truncating to a byte reads eight bits of the number,
    whether or not it went through [uint64] first. *)
Lemma byte_shiftr_uint64 n k :
  0 <= k <= 56 -> byte (Z.shiftr (uint64 n) k) = (n / 2 ^ k) mod 256.
Proof.
  intros Hk. unfold byte, uint64.
  rewrite <- (Z.shiftr_div_pow2 n k) by lia.
  change 256 with (2 ^ 8).
  apply Z.bits_inj'. intros i Hi.
  destruct (Z.ltb_spec i 8) as [Hlt | Hge].
  - rewrite !Z.mod_pow2_bits_low by lia.
    rewrite !Z.shiftr_spec by lia.
    apply Z.mod_pow2_bits_low. lia.
  - rewrite !Z.mod_pow2_bits_high by lia. reflexivity.
Qed.

Lemma byte_shiftr n k :
  0 <= k -> byte (Z.shiftr n k) = (n / 2 ^ k) mod 256.
Proof.
  intros Hk. unfold byte. now rewrite Z.shiftr_div_pow2 by lia.
Qed.

Lemma fold_big_endian k : forall n acc,
  fold_left (fun a b => a * 256 + b) (big_endian k n) acc
  = acc * 256 ^ Z.of_nat k + n mod 256 ^ Z.of_nat k.
Proof.
  induction k as [|k IH]; intros n acc.
  - simpl. rewrite Z.mod_1_r. lia.
  - cbn [big_endian fold_left]. rewrite IH.
    rewrite Nat2Z.inj_succ, Z.pow_succ_r by lia.
    assert (Hpos : 0 < 256 ^ Z.of_nat k) by (apply Z.pow_pos_nonneg; lia).
    rewrite (Z.mul_comm 256 (256 ^ Z.of_nat k)).
    rewrite (Z.rem_mul_r n (256 ^ Z.of_nat k) 256) by lia.
    ring.
Qed.

Lemma from_big_endian_big_endian k n :
  from_big_endian (big_endian k n) = n mod 256 ^ Z.of_nat k.
Proof. unfold from_big_endian. rewrite fold_big_endian. lia. Qed.

(** The length bytes decode to the payload length (a Go slice is shorter
    than 2^63 bytes). *)
Lemma read_length_three_tier n rest :
  0 <= n < 2 ^ 64 -> read_length (three_tier_length n ++ rest) = Some n.
Proof.
  intros Hn. unfold three_tier_length.
  destruct (Z.ltb_spec n 126) as [H1 | H1].
  - simpl. destruct (Z.ltb_spec n 126); [reflexivity | lia].
  - destruct (Z.leb_spec n 65535) as [H2 | H2].
    + change (read_length ((126 :: big_endian 2 n) ++ rest))
        with (Some (from_big_endian (big_endian 2 n))).
      rewrite from_big_endian_big_endian.
      f_equal. apply Z.mod_small. change (256 ^ Z.of_nat 2) with 65536. lia.
    + change (read_length ((127 :: big_endian 8 n) ++ rest))
        with (Some (from_big_endian (big_endian 8 n))).
      rewrite from_big_endian_big_endian.
      f_equal. apply Z.mod_small. change (256 ^ Z.of_nat 8) with (2 ^ 64). lia.
Qed.

(** The frames at the boundaries of the three tiers. *)
Lemma writeText_frame_at_boundaries :
  take 3 (writeText_frame (replicate 125 0)) = [129; 125; 0] /\
  take 5 (writeText_frame (replicate 126 0)) = [129; 126; 0; 126; 0] /\
  take 5 (writeText_frame (replicate (Z.to_nat 65535) 0)) = [129; 126; 255; 255; 0] /\
  take 11 (writeText_frame (replicate (Z.to_nat 65536) 0))
  = [129; 127; 0; 0; 0; 0; 0; 1; 0; 0; 0].
Proof. vm_compute. repeat split. Qed.

(** C6.  The frame [writeText] sends is the fixed byte 0x81, then the
    three-tier length prefix of the payload length (one byte below 126;
    126 and two big-endian bytes up to 65535; 127 and eight big-endian
    bytes above), then the payload. *)
Theorem writeText_frame_three_tier (payload : list Z) :
  writeText_frame payload
  = 129 :: three_tier_length (Z.of_nat (length payload)) ++ payload.
Proof.
  unfold writeText_frame, three_tier_length.
  set (n := Z.of_nat (length payload)).
  assert (Hn : 0 <= n) by (subst n; lia).
  destruct (Z.ltb_spec n 126) as [H1 | H1].
  - rewrite byte_small by lia. reflexivity.
  - destruct (Z.leb_spec n 65535) as [H2 | H2].
    + cbn [big_endian app].
      rewrite byte_shiftr by lia.
      unfold byte.
      change (256 ^ Z.of_nat 1) with (2 ^ 8).
      change (256 ^ Z.of_nat 0) with 1. rewrite Z.div_1_r.
      reflexivity.
    + cbn [big_endian app].
      rewrite !byte_shiftr_uint64 by lia.
      replace (byte (uint64 n)) with (n mod 256).
      2:{ pose proof (byte_shiftr_uint64 n 0 ltac:(lia)) as H0.
          rewrite Z.shiftr_0_r, Z.pow_0_r, Z.div_1_r in H0. now rewrite H0. }
      change (256 ^ Z.of_nat 7) with (2 ^ 56).
      change (256 ^ Z.of_nat 6) with (2 ^ 48).
      change (256 ^ Z.of_nat 5) with (2 ^ 40).
      change (256 ^ Z.of_nat 4) with (2 ^ 32).
      change (256 ^ Z.of_nat 3) with (2 ^ 24).
      change (256 ^ Z.of_nat 2) with (2 ^ 16).
      change (256 ^ Z.of_nat 1) with (2 ^ 8).
      change (256 ^ Z.of_nat 0) with 1. rewrite Z.div_1_r.
      reflexivity.
Qed.

End FrameCodec.

Section Hub.
Import Server.
Variable fails : wsConn -> bool.
Variable data : list Z.

Ltac hub_sets :=
  rewrite ?elem_of_difference, ?elem_of_union, ?elem_of_singleton in *;
  intuition congruence.

Lemma writeText_errors h c :
  writeText fails h c data
  = if write_errors fails h c then (h, true)
    else ({| conns := conns h; closed := closed h;
             delivered := fun c' =>
               if bool_decide (c' = c)
               then delivered h c' ++ [writeText_frame data]
               else delivered h c' |}, false).
Proof. reflexivity. Qed.

(** A connection outside the snapshot is not touched. *)
Lemma write_snapshot_outside snapshot : forall h c,
  c ∉ snapshot ->
  let h' := write_snapshot fails data snapshot h in
  (c ∈ conns h' <-> c ∈ conns h) /\
  (c ∈ closed h' <-> c ∈ closed h) /\
  delivered h' c = delivered h c.
Proof.
  induction snapshot as [|a rest IH]; intros h c Hc; cbn.
  - tauto.
  - apply not_elem_of_cons in Hc as [Hne Hrest].
    rewrite writeText_errors.
    destruct (write_errors fails h a).
    + destruct (IH (remove h a) c Hrest) as (H1 & H2 & H3).
      cbn in *. rewrite H1, H2, H3. hub_sets.
    + match goal with |- context [write_snapshot _ _ rest ?h1] =>
        destruct (IH h1 c Hrest) as (H1 & H2 & H3) end.
      cbn in *. rewrite H1, H2, H3.
      rewrite bool_decide_eq_false_2 by done. tauto.
Qed.

(** A connection of the snapshot is written exactly once; the outcome of
    that write decides between delivery and removal. *)
Lemma write_snapshot_inside snapshot : forall h c,
  NoDup snapshot -> c ∈ snapshot ->
  let h' := write_snapshot fails data snapshot h in
  if write_errors fails h c
  then ((c ∉ conns h') /\ c ∈ closed h' /\ delivered h' c = delivered h c)
  else ((c ∈ conns h' <-> c ∈ conns h) /\
        (c ∈ closed h' <-> c ∈ closed h) /\
        delivered h' c = delivered h c ++ [writeText_frame data]).
Proof.
  induction snapshot as [|a rest IH]; intros h c Hnd Hc; cbn.
  - by apply elem_of_nil in Hc.
  - apply NoDup_cons in Hnd as [Ha Hnd].
    rewrite writeText_errors.
    apply elem_of_cons in Hc as [-> | Hc].
    + (* the head: the rest of the loop leaves it alone *)
      destruct (write_errors fails h a) eqn:He.
      * destruct (write_snapshot_outside rest (remove h a) a Ha) as (H1 & H2 & H3).
        cbn in *. rewrite H1, H2, H3. hub_sets.
      * match goal with |- context [write_snapshot _ _ rest ?h1] =>
          destruct (write_snapshot_outside rest h1 a Ha) as (H1 & H2 & H3) end.
        cbn in *. rewrite H1, H2, H3.
        rewrite bool_decide_eq_true_2 by done. tauto.
    + (* further down: the head's write does not change what [c] gets *)
      assert (Hne : c ≠ a) by (intros ->; contradiction).
      destruct (write_errors fails h a) eqn:He.
      * specialize (IH (remove h a) c Hnd Hc). cbn in IH.
        replace (write_errors fails (remove h a) c) with (write_errors fails h c) in IH.
        2:{ unfold write_errors. f_equal. cbn.
            apply bool_decide_ext. hub_sets. }
        destruct (write_errors fails h c).
        -- destruct IH as (H1 & H2 & H3). cbn in *. auto.
        -- destruct IH as (H1 & H2 & H3). cbn in *.
           rewrite H1, H2, H3. hub_sets.
      * match goal with |- context [write_snapshot _ _ rest ?h1] =>
          specialize (IH h1 c Hnd Hc); set (hh := h1) in * end.
        cbn in IH.
        replace (write_errors fails hh c) with (write_errors fails h c) in IH by reflexivity.
        destruct (write_errors fails h c).
        -- destruct IH as (H1 & H2 & H3). subst hh. cbn in *.
           rewrite bool_decide_eq_false_2 in H3 by done. auto.
        -- destruct IH as (H1 & H2 & H3). subst hh. cbn in *.
           rewrite bool_decide_eq_false_2 in H3 by done.
           rewrite H1, H2, H3. tauto.
Qed.

End Hub.

(** C5.  When the message serializes and [snapshot] lists the members of
    the hub (in any order), every member whose write succeeds stays a
    member and has the frame of the serialized message appended to what it
    received; every member whose write fails is removed and closed and
    receives nothing.  So each snapshot member receives the message or is
    removed, and a failure touches only the failing connection. *)
Theorem broadcastJSON_delivers_or_removes
    (V : Type) (marshal : V -> option (list Z)) (fails : Server.wsConn -> bool)
    (h : Server.hub) (v : V) (data : list Z) (snapshot : list Server.wsConn)
    (c : Server.wsConn) :
  marshal v = Some data ->
  snapshot ≡ₚ elements (Server.conns h) ->
  c ∈ Server.conns h ->
  let h' := Server.broadcastJSON marshal fails snapshot h v in
  if Server.write_errors fails h c
  then ((c ∉ Server.conns h') /\ c ∈ Server.closed h' /\
        Server.delivered h' c = Server.delivered h c)
  else (c ∈ Server.conns h' /\
        Server.delivered h' c
        = Server.delivered h c ++ [Server.writeText_frame data]).
Proof.
  intros Hm Hperm Hc h'. subst h'. unfold Server.broadcastJSON. rewrite Hm.
  assert (Hnd : NoDup snapshot).
  { rewrite Hperm. apply NoDup_elements. }
  assert (Hin : c ∈ snapshot).
  { rewrite Hperm. by apply elem_of_elements. }
  pose proof (write_snapshot_inside fails data snapshot h c Hnd Hin) as H.
  cbn in H. destruct (Server.write_errors fails h c).
  - exact H.
  - destruct H as (H1 & _ & H3). split; [by apply H1 | exact H3].
Qed.

Lemma broadcastJSON_delivers_or_removes_witness :
  let h' := Server.broadcastJSON Server.example_marshal Server.example_fails
              (elements (Server.conns Server.example_hub))
              Server.example_hub [123; 125] in
  ((2%positive ∉ Server.conns h') /\ 2%positive ∈ Server.closed h' /\
   Server.delivered h' 2%positive = []) /\
  (1%positive ∈ Server.conns h' /\
   Server.delivered h' 1%positive = [[129; 2; 123; 125]]).
Proof.
  split.
  - apply (broadcastJSON_delivers_or_removes _ Server.example_marshal
             Server.example_fails Server.example_hub [123; 125] [123; 125]
             (elements (Server.conns Server.example_hub)) 2%positive).
    + reflexivity.
    + reflexivity.
    + vm_compute. reflexivity.
  - apply (broadcastJSON_delivers_or_removes _ Server.example_marshal
             Server.example_fails Server.example_hub [123; 125] [123; 125]
             (elements (Server.conns Server.example_hub)) 1%positive).
    + reflexivity.
    + reflexivity.
    + vm_compute. reflexivity.
Defined.

Section HubAmongOthers.
Import Server.
Variable fails : wsConn -> bool.
Variable data : list Z.

Ltac hub_sets :=
  rewrite ?elem_of_difference, ?elem_of_union, ?elem_of_singleton in *;
  intuition congruence.

(** Without interference the loop is [write_snapshot]. *)
Lemma write_among_nobody snapshot : forall h,
  write_snapshot_among fails data (map (fun c => (c, [])) snapshot) h
  = write_snapshot fails data snapshot h.
Proof.
  induction snapshot as [|a rest IH]; intros h; cbn; [reflexivity|].
  destruct (writeText fails h a data) as [h1 err]. apply IH.
Qed.

(** Operations of other goroutines that never add [c] cannot make it a
    member, and never touch what it received. *)
Lemma interfere_not_added c others : forall h,
  OtherAdd c ∉ others ->
  let h' := fold_left interfere others h in
  (c ∈ conns h' -> c ∈ conns h) /\ delivered h' c = delivered h c.
Proof.
  induction others as [|a rest IH]; intros h Hadd; cbn.
  - tauto.
  - apply not_elem_of_cons in Hadd as [Ha Hrest].
    destruct (IH (interfere h a) Hrest) as [H1 H2]. cbn in H1, H2.
    rewrite H2. split; [|destruct a; reflexivity].
    intros Hc. specialize (H1 Hc).
    destruct a as [c'|c']; cbn in H1; hub_sets.
Qed.

Lemma write_among_outside snapshot : forall h c,
  c ∉ snapshot.*1 -> never_added c snapshot ->
  let h' := write_snapshot_among fails data snapshot h in
  (c ∈ conns h' -> c ∈ conns h) /\ delivered h' c = delivered h c.
Proof.
  induction snapshot as [|[a others] rest IH]; intros h c Hc Hadd; cbn.
  - tauto.
  - cbn in Hc. apply not_elem_of_cons in Hc as [Hne Hrest].
    apply Forall_cons in Hadd as [Ha Hadd]. cbn in Ha.
    unfold writeText.
    destruct (write_errors fails h a).
    + match goal with |- context [write_snapshot_among _ _ rest ?h1] =>
        destruct (IH h1 c Hrest Hadd) as [H1 H2] end.
      destruct (interfere_not_added c others (remove h a) Ha) as [H3 H4].
      cbn in *. rewrite H2, H4. split; [|reflexivity].
      intros Hin. specialize (H3 (H1 Hin)). hub_sets.
    + match goal with |- context [write_snapshot_among _ _ rest ?h1] =>
        destruct (IH h1 c Hrest Hadd) as [H1 H2] end.
      match type of H2 with _ = delivered (fold_left interfere others ?h1) c =>
        destruct (interfere_not_added c others h1 Ha) as [H3 H4] end.
      cbn in *. rewrite H2, H4.
      rewrite bool_decide_eq_false_2 by done. split; [|reflexivity].
      intros Hin. exact (H3 (H1 Hin)).
Qed.

(** X8.  With other goroutines adding fresh connections and removing any
    connection between the writes, a snapshot member still either gets the
    frame or ends up outside the hub. *)
Lemma write_among_delivers_or_removes snapshot : forall h c,
  NoDup snapshot.*1 -> c ∈ snapshot.*1 -> never_added c snapshot ->
  let h' := write_snapshot_among fails data snapshot h in
  delivered h' c = delivered h c ++ [writeText_frame data] \/
  ((c ∉ conns h') /\ delivered h' c = delivered h c).
Proof.
  induction snapshot as [|[a others] rest IH]; intros h c Hnd Hc Hadd; cbn.
  - by apply elem_of_nil in Hc.
  - cbn in Hnd, Hc. apply NoDup_cons in Hnd as [Ha Hnd].
    apply Forall_cons in Hadd as [Hothers Hadd]. cbn in Hothers.
    unfold writeText.
    apply elem_of_cons in Hc as [-> | Hc].
    + destruct (write_errors fails h a).
      * right.
        match goal with |- context [write_snapshot_among _ _ rest ?h1] =>
          destruct (write_among_outside rest h1 a Ha Hadd) as [H1 H2] end.
        destruct (interfere_not_added a others (remove h a) Hothers) as [H3 H4].
        cbn in *. rewrite H2, H4. split; [|reflexivity].
        intros Hin. specialize (H3 (H1 Hin)). hub_sets.
      * left.
        match goal with |- context [write_snapshot_among _ _ rest ?h1] =>
          destruct (write_among_outside rest h1 a Ha Hadd) as [H1 H2] end.
        match type of H2 with _ = delivered (fold_left interfere others ?h1) a =>
          destruct (interfere_not_added a others h1 Hothers) as [H3 H4] end.
        cbn in *. rewrite H2, H4.
        now rewrite bool_decide_eq_true_2 by done.
    + assert (Hne : c ≠ a) by (intros ->; contradiction).
      destruct (write_errors fails h a).
      * match goal with |- context [write_snapshot_among _ _ rest ?h1] =>
          specialize (IH h1 c Hnd Hc Hadd) end.
        destruct (interfere_not_added c others (remove h a) Hothers) as [H3 H4].
        cbn in *. rewrite H4 in IH. exact IH.
      * match goal with |- context [write_snapshot_among _ _ rest ?h1] =>
          specialize (IH h1 c Hnd Hc Hadd) end.
        match type of IH with context [fold_left interfere others ?h1] =>
          destruct (interfere_not_added c others h1 Hothers) as [H3 H4] end.
        cbn in *. rewrite H4 in IH.
        rewrite bool_decide_eq_false_2 in IH by done. exact IH.
Qed.

End HubAmongOthers.

Section Scheduler.
Import Server.

Lemma effective_period_pos period : 0 < effective_period period.
Proof.
  unfold effective_period, Second.
  destruct (Z.leb_spec period 0); lia.
Qed.

Lemma UnixMilli_Add_whole t d :
  d mod 1000000 = 0 -> UnixMilli (Add t d) = UnixMilli t + d / 1000000.
Proof.
  intros Hd. unfold UnixMilli, Add. cbn.
  rewrite (Z.div_mod d 1000000) at 1 by lia.
  rewrite Hd, Z.add_0_r, (Z.mul_comm 1000000), Z.div_add by lia.
  reflexivity.
Qed.

Lemma Milliseconds_whole d : 0 <= d -> Milliseconds d = d / 1000000.
Proof. intros Hd. unfold Milliseconds. apply Z.quot_div_nonneg; lia. Qed.

(** What a step broadcasts, in terms of the reading it takes and of the
    instant the message was scheduled for. *)
Lemma step_message period s r m :
  snd (step period s r) = Some m ->
  Type_ m = "pulse" /\
  Seq m = seq s /\
  PeriodMS m = Milliseconds (effective_period period) /\
  NowMS m = UnixMilli r /\
  NextMS m = UnixMilli (Add (nominal period s) (effective_period period)).
Proof.
  unfold step, nominal. destruct (at_ s) eqn:Hat; cbn.
  - intros [= <-]. cbn. repeat split.
    unfold Add. cbn. f_equal. destruct (next s); cbn. f_equal; lia.
  - discriminate.
  - intros [= <-]. cbn. repeat split.
  - destruct (Until (next s) r <=? 0); discriminate.
Qed.

Lemma run_from_emitted period : forall readings s m,
  reachable period s ->
  In m (snd (run_from period s readings)) ->
  exists s0 r, reachable period s0 /\ In r readings /\
               snd (step period s0 r) = Some m.
Proof.
  induction readings as [|r rest IH]; intros s m Hs Hin; cbn in Hin.
  - contradiction.
  - destruct (step period s r) as [s1 out] eqn:Hstep.
    destruct (run_from period s1 rest) as [s2 outs] eqn:Hrun.
    assert (Hs1 : reachable period s1).
    { replace s1 with (fst (step period s r)) by now rewrite Hstep.
      now constructor. }
    assert (Hrest : In m outs ->
                    exists s0 r0, reachable period s0 /\ In r0 (r :: rest) /\
                                  snd (step period s0 r0) = Some m).
    { intros Hm. destruct (IH s1 m Hs1) as (s0 & r0 & H1 & H2 & H3).
      - now rewrite Hrun.
      - exists s0, r0. repeat split; auto. now right. }
    destruct out as [m0|]; cbn in Hin.
    + destruct Hin as [-> | Hin]; [|auto].
      exists s, r. repeat split; auto.
      * now left.
      * now rewrite Hstep.
    + auto.
Qed.

(** X13.  A broadcast whose clock reading is no later than one period
    after the instant it was scheduled for announces a [next_ms] that is not
    behind its [now_ms]. *)
Lemma step_next_not_past period s r m :
  snd (step period s r) = Some m ->
  wall r <= wall (nominal period s) + effective_period period ->
  NowMS m <= NextMS m.
Proof.
  intros Hm Hr.
  destruct (step_message period s r m Hm) as (_ & _ & _ & -> & ->).
  unfold UnixMilli, Add. cbn. apply Z.div_le_mono; lia.
Qed.

(** The k-th broadcast of a run, located in the run: the readings taken
    before it, the reading [r] it takes, and the step that broadcasts it
    from the state the run is in by then. *)
Lemma run_from_nth period : forall readings s k m,
  nth_error (snd (run_from period s readings)) k = Some m ->
  exists pre r post,
    readings = pre ++ r :: post /\
    length (snd (run_from period s pre)) = k /\
    snd (step period (fst (run_from period s pre)) r) = Some m.
Proof.
  induction readings as [|r1 rest IH]; intros s k m Hk; cbn in Hk.
  - destruct k; discriminate.
  - destruct (step period s r1) as [s1 out] eqn:Hstep.
    destruct (run_from period s1 rest) as [s2 outs] eqn:Hrun.
    assert (Houts : outs = snd (run_from period s1 rest)) by now rewrite Hrun.
    assert (Hlater : forall k', nth_error outs k' = Some m ->
      exists pre r post,
        r1 :: rest = pre ++ r :: post /\
        length (snd (run_from period s pre))
        = (match out with Some _ => S k' | None => k' end) /\
        snd (step period (fst (run_from period s pre)) r) = Some m).
    { intros k' Hk'. rewrite Houts in Hk'.
      destruct (IH s1 k' m Hk') as (pre & r & post & Hsplit & Hlen & Hm).
      exists (r1 :: pre), r, post. cbn. rewrite Hstep.
      destruct (run_from period s1 pre) as [s3 outs3]. cbn in *.
      split; [now rewrite Hsplit|]. split; [|exact Hm].
      destruct out; cbn; lia. }
    destruct out as [m0|]; cbn in Hk.
    + destruct k as [|k]; cbn in Hk.
      * injection Hk as <-. exists [], r1, rest. cbn.
        rewrite Hstep. auto.
      * exact (Hlater k Hk).
    + exact (Hlater k Hk).
Qed.

(** The loop broadcasts at once: before its first broadcast it has taken
    no reading beyond the one that set [next]. *)
Lemma run_from_first_reading period r0 pre :
  snd (run_from period (start period r0) pre) = [] -> pre = [].
Proof.
  destruct pre as [|r1 rest]; [reflexivity|]. cbn.
  destruct (run_from period _ rest) as [s2 outs]. discriminate.
Qed.

Lemma nominal_start period r0 : nominal period (start period r0) = r0.
Proof.
  unfold nominal, start, Add. cbn. destruct r0 as [w m]. cbn. f_equal; lia.
Qed.

(** C1 (amended).  Take the k-th message of a run, for a period of whole
    milliseconds.  The run has taken the readings [r0 :: pre], with k
    broadcasts among them, and stands in state [s]; on the next reading [r]
    it broadcasts the message.  Its [now_ms] is the wall-clock millisecond
    of [r], and its [next_ms] is the millisecond of the instant it was
    scheduled for ([next] of [s], and the first reading [r0] for seq 0)
    plus [period_ms].  So [next_ms - now_ms] is [period_ms] minus the
    number of milliseconds [r] is past the scheduled instant, and is
    [period_ms] exactly when the two fall into the same millisecond. *)
Theorem startPulseLoop_next_minus_now period readings k m :
  effective_period period mod 1000000 = 0 ->
  nth_error (startPulseLoop period readings) k = Some m ->
  exists r0 pre r post,
    readings = r0 :: pre ++ r :: post /\
    length (snd (run_from period (start period r0) pre)) = k /\
    let s := fst (run_from period (start period r0) pre) in
    snd (step period s r) = Some m /\
    (k = 0%nat -> pre = [] /\ nominal period s = r0) /\
    (k <> 0%nat -> nominal period s = next s) /\
    PeriodMS m = effective_period period / 1000000 /\
    NowMS m = UnixMilli r /\
    NextMS m = UnixMilli (nominal period s) + PeriodMS m /\
    NextMS m - NowMS m
    = PeriodMS m - (UnixMilli r - UnixMilli (nominal period s)) /\
    (NextMS m - NowMS m = PeriodMS m
     <-> UnixMilli r = UnixMilli (nominal period s)).
Proof.
  intros Hwhole Hk. unfold startPulseLoop in Hk.
  destruct readings as [|r0 rest]; [destruct k; discriminate|].
  destruct (run_from_nth period rest (start period r0) k m Hk)
    as (pre & r & post & Hsplit & Hlen & Hm).
  exists r0, pre, r, post. cbn zeta.
  destruct (step_message period _ r m Hm) as (_ & _ & Hp & Hnow & Hnext).
  rewrite UnixMilli_Add_whole in Hnext by assumption.
  rewrite Milliseconds_whole in Hp
    by (pose proof (effective_period_pos period); lia).
  split; [now rewrite Hsplit|]. split; [exact Hlen|]. split; [exact Hm|].
  split.
  { intros ->. apply length_zero_iff_nil in Hlen.
    apply run_from_first_reading in Hlen. subst pre. cbn.
    split; [reflexivity | apply nominal_start]. }
  split.
  { intros Hk0. unfold nominal.
    destruct (at_ (fst (run_from period (start period r0) pre))) eqn:Hat;
      try reflexivity.
    (* still before the first broadcast: then nothing was broadcast *)
    exfalso. apply Hk0. rewrite <- Hlen.
    destruct pre as [|r1 pre']; [reflexivity|].
    exfalso. clear - Hat.
    assert (Hnever : forall rs s1, at_ s1 <> AtFirstNow ->
              at_ (fst (run_from period s1 rs)) <> AtFirstNow).
    { induction rs as [|x rs IH]; intros s1 Hs1; cbn; [exact Hs1|].
      destruct (step period s1 x) as [s2 out] eqn:Hstep.
      specialize (IH s2).
      destruct (run_from period s2 rs) as [s3 outs]. cbn in *. apply IH.
      unfold step in Hstep. destruct (at_ s1);
        try destruct (Until (next s1) x <=? 0);
        injection Hstep as <- _; discriminate. }
    cbn in Hat.
    destruct (run_from period _ pre') as [s3 outs] eqn:Hrun. cbn in Hat.
    eapply (Hnever pre'); [|rewrite Hrun; exact Hat]. discriminate. }
  repeat split; auto; lia.
Qed.

Lemma startPulseLoop_next_minus_now_witness :
  exists r0 pre r post,
    late_wakeup = r0 :: pre ++ r :: post /\
    length (snd (run_from Second (start Second r0) pre)) = 1%nat /\
    let s := fst (run_from Second (start Second r0) pre) in
    snd (step Second s r)
    = Some (mkPulse "pulse" 1 1000 1739700001001 1739700002000) /\
    (1%nat = 0%nat -> pre = [] /\ nominal Second s = r0) /\
    (1%nat <> 0%nat -> nominal Second s = next s) /\
    1000 = effective_period Second / 1000000 /\
    1739700001001 = UnixMilli r /\
    1739700002000 = UnixMilli (nominal Second s) + 1000 /\
    1739700002000 - 1739700001001
    = 1000 - (UnixMilli r - UnixMilli (nominal Second s)) /\
    (1739700002000 - 1739700001001 = 1000
     <-> UnixMilli r = UnixMilli (nominal Second s)).
Proof.
  apply (startPulseLoop_next_minus_now Second late_wakeup 1
           (mkPulse "pulse" 1 1000 1739700001001 1739700002000)).
  - reflexivity.
  - reflexivity.
Defined.

(** The claim of C1 as stated fails: with a one-second period and a
    wake-up 1.2 ms late, the second message has [next_ms - now_ms = 999]. *)
Lemma next_minus_now_is_not_period :
  startPulseLoop Second late_wakeup
  = [mkPulse "pulse" 0 1000 1739700000000 1739700001000;
     mkPulse "pulse" 1 1000 1739700001001 1739700002000] /\
  ~ Forall (fun m => NextMS m - NowMS m = PeriodMS m)
           (startPulseLoop Second late_wakeup).
Proof.
  split; [reflexivity|].
  change (startPulseLoop Second late_wakeup)
    with [mkPulse "pulse" 0 1000 1739700000000 1739700001000;
          mkPulse "pulse" 1 1000 1739700001001 1739700002000].
  intros H. apply Forall_cons_iff in H as [_ H].
  apply Forall_cons_iff in H as [H _]. cbn in H. lia.
Qed.

(** C3 (the code at the failing input).  With a period of 250 ms and a
    wake-up 300 ms late, the second message is sent at ...550 and announces
    the next pulse for ...500, which has passed; the pulse that follows goes
    out at ...750. *)
Theorem overslept_next_ms_in_the_past :
  startPulseLoop (250 * Millisecond) overslept
  = [mkPulse "pulse" 0 250 1739700000000 1739700000250;
     mkPulse "pulse" 1 250 1739700000550 1739700000500;
     mkPulse "pulse" 2 250 1739700000750 1739700001000] /\
  Exists (fun m => NextMS m < NowMS m)
         (startPulseLoop (250 * Millisecond) overslept).
Proof.
  split; [reflexivity|].
  change (startPulseLoop (250 * Millisecond) overslept)
    with [mkPulse "pulse" 0 250 1739700000000 1739700000250;
          mkPulse "pulse" 1 250 1739700000550 1739700000500;
          mkPulse "pulse" 2 250 1739700000750 1739700001000].
  apply Exists_cons_tl, Exists_cons_hd. cbn. lia.
Qed.

End Scheduler.

(* ===================================================================== *)
(** * Part IV: properties of the client                                   *)
(* ===================================================================== *)

Section ClientFacts.
Import Client.
Context `{Host}.

(** Case analysis on every test the goal still contains. *)
Ltac split_tests :=
  repeat match goal with
         | |- context [if negb ?b then _ else _] => destruct b eqn:?; cbn in *
         | |- context [if ?a && _ then _ else _] => destruct a eqn:?; cbn in *
         | |- context [if ?b then _ else _] => destruct b eqn:?; cbn in *
         | |- context [match ?x with Some _ => _ | None => _ end] =>
             destruct x eqn:?; cbn in *
         end.

(** Replace a test by the outcome assumed for it. *)
Ltac use_tests :=
  repeat match goal with
         | Hb : ?b = true |- context [?b] => rewrite Hb; cbn
         | Hb : ?b = false |- context [?b] => rewrite Hb; cbn
         end.

Ltac open_handlePulse :=
  unfold handlePulse, updateStability, captureLockOrigin, clearLockOrigin,
    disconnect, predictNextArrivalMonoMs; cbn.

Lemma lock_condition_bool o c :
  lock_condition o c <->
  (Z.of_nat (length (recentStability c)) >=? requiredStablePulses o)
  && (stableCount c >=? stabilityTarget o) = true.
Proof.
  unfold lock_condition. rewrite andb_true_iff, !Z.geb_le. lia.
Qed.

(** *** The sticky guard *)

Lemma handlePulse_ignored o c pulse t :
  stickyLock o = true -> locked c = true -> handlePulse o c pulse t = (c, []).
Proof. intros Hs Hl. unfold handlePulse. now rewrite Hs, Hl. Qed.

(** C7.  With [stickyLock] set and [locked] true, an inbound message,
    whatever it holds, leaves every field of the client as it was and
    dispatches no event at all. *)
Theorem sticky_locked_message_is_discarded o c parsed t :
  stickyLock o = true -> locked c = true ->
  onMessage o c parsed t = (c, []).
Proof.
  intros Hs Hl. unfold onMessage.
  destruct parsed as [msg|]; [|reflexivity].
  destruct (isPulseMessage msg); [|reflexivity].
  now apply handlePulse_ignored.
Qed.

(** *** The lock decision *)

Lemma handlePulse_lock_decision o c pulse t :
  stickyLock o && locked c = false ->
  let c' := fst (handlePulse o c pulse t) in
  locked c'
  = (Z.of_nat (length (recentStability c')) >=? requiredStablePulses o)
    && (stableCount c' >=? stabilityTarget o).
Proof.
  intros Hgo. unfold handlePulse. rewrite Hgo.
  destruct (locked c) eqn:Hlocked, (lastPredictedArrivalMono c) eqn:Hpred;
    open_handlePulse; rewrite ?Hlocked, ?Hpred; cbn;
    split_tests; use_tests; congruence.
Qed.

Lemma target_positive o : 1 <= stabilityTarget o.
Proof. unfold stabilityTarget. lia. Qed.

Lemma locked_iff_lock_condition o c :
  reachable o c -> (locked c = true <-> lock_condition o c).
Proof.
  intros Hr. rewrite lock_condition_bool.
  induction Hr as [ | c Hr IH | c p Hr IH | c Hr IH | c Hr IH | c parsed t Hr IH].
  - cbn. pose proof (target_positive o).
    destruct (Z.geb_spec 0 (stabilityTarget o)); [lia|].
    rewrite andb_false_r. tauto.
  - unfold connect. destruct (ws c); exact IH.
  - unfold disconnect. destruct (ws c); exact IH.
  - exact IH.
  - unfold onClose. cbn. destruct (preserveStateOnClose c); cbn; [exact IH|].
    pose proof (target_positive o).
    destruct (Z.geb_spec 0 (stabilityTarget o)); [lia|].
    rewrite andb_false_r. tauto.
  - unfold onMessage. destruct parsed as [msg|]; [|exact IH].
    destruct (isPulseMessage msg); [|exact IH]. cbn [negb].
    destruct (stickyLock o && locked c) eqn:Hgo.
    + unfold handlePulse. rewrite Hgo. exact IH.
    + rewrite (handlePulse_lock_decision o c msg t Hgo). tauto.
Qed.

(** C4 (amended).  After every message, in every state the client can
    reach and for all options, [locked] is true if and only if the window
    holds at least [requiredStablePulses] entries and [stableCount] is at
    least the larger of 1 and [requiredStablePulses - allowedUnstablePulses]. *)
Theorem locked_after_message o c parsed t :
  reachable o c ->
  let c' := fst (onMessage o c parsed t) in
  locked c' = true <-> lock_condition o c'.
Proof.
  intros Hr c'. apply locked_iff_lock_condition. subst c'. now constructor.
Qed.

(** *** The lock origin *)

Lemma handlePulse_keeps_lock_origin o c pulse t :
  lock_origin_present c -> lock_origin_present (fst (handlePulse o c pulse t)).
Proof.
  unfold lock_origin_present. intros Hinv.
  unfold handlePulse.
  destruct (stickyLock o && locked c) eqn:Hgo; [exact Hinv|].
  destruct (locked c) eqn:Hlocked, (lastPredictedArrivalMono c) eqn:Hpred;
    open_handlePulse; rewrite ?Hlocked, ?Hpred; cbn;
    split_tests; use_tests; intros Hl; try congruence; eauto.
Qed.

Lemma onMessage_keeps_lock_origin o c parsed t :
  lock_origin_present c -> lock_origin_present (fst (onMessage o c parsed t)).
Proof.
  intros Hinv. unfold onMessage.
  destruct parsed as [msg|]; [|exact Hinv].
  destruct (isPulseMessage msg); [|exact Hinv].
  now apply handlePulse_keeps_lock_origin.
Qed.

Lemma disconnect_keeps_lock_origin p c :
  lock_origin_present c -> lock_origin_present (disconnect p c).
Proof. unfold disconnect. destruct (ws c); auto. Qed.

Lemma onClose_keeps_lock_origin c :
  lock_origin_present c -> lock_origin_present (fst (onClose c)).
Proof.
  unfold lock_origin_present, onClose. cbn.
  destruct (preserveStateOnClose c); cbn; [auto | discriminate].
Qed.

Lemma reachable_lock_origin o c : reachable o c -> lock_origin_present c.
Proof.
  induction 1 as [ | c Hr IH | c p Hr IH | c Hr IH | c Hr IH | c parsed t Hr IH].
  - intros Hl. discriminate.
  - unfold connect. destruct (ws c); exact IH.
  - now apply disconnect_keeps_lock_origin.
  - exact IH.
  - now apply onClose_keeps_lock_origin.
  - now apply onMessage_keeps_lock_origin.
Qed.

(** C10.  In every reachable state, [locked] implies that both halves of
    the lock origin are set (the induction goes through message handling,
    [disconnect] and the close listener by the lemmas above), and
    [serverNowMs()] then returns the origin's server time plus the local
    time elapsed since the origin: the [lastPulse] branch is not reached. *)
Theorem locked_projects_from_lock_origin o c :
  reachable o c ->
  lock_origin_present c /\
  (locked c = true ->
   exists originMono originServer,
     lockOriginMonoMs c = Some originMono /\
     lockOriginServerMs c = Some originServer /\
     forall now,
       serverNowMs c now
       = Some (PrimFloat.add originServer (PrimFloat.sub now originMono))).
Proof.
  intros Hr. pose proof (reachable_lock_origin o c Hr) as Hinv.
  split; [exact Hinv|].
  intros Hl. destruct (Hinv Hl) as (m & s & Hm & Hs).
  exists m, s. repeat split; auto.
  intros now. unfold serverNowMs. now rewrite Hl, Hm, Hs.
Qed.

(** *** Projection while unlocked *)

(** C2 (amended).  While [locked] is false, [serverNowMs()] returns [null],
    also when a pulse has been accepted: there is no estimate based on the
    last pulse for an unlocked client. *)
Theorem serverNowMs_unlocked c lp now :
  locked c = false -> lastPulse c = Some lp -> serverNowMs c now = None.
Proof. intros Hl _. unfold serverNowMs. now rewrite Hl. Qed.

Local Arguments finiteOr : simpl never.

Lemma handlePulse_lastPulse o c pulse t :
  stickyLock o && locked c = false ->
  lastPulse (fst (handlePulse o c pulse t))
  = Some {| LastPulse.seq := prop pulse "seq";
            LastPulse.serverNowMs := finiteOr (prop pulse "now_ms") zero;
            LastPulse.serverNextMs := finiteOr (prop pulse "next_ms") zero;
            LastPulse.periodMs := finiteOr (prop pulse "period_ms") 1000%float;
            LastPulse.arrivalMonoMs := at_arrival t |}.
Proof.
  intros Hgo. unfold handlePulse. rewrite Hgo.
  destruct (locked c) eqn:Hlocked, (lastPredictedArrivalMono c) eqn:Hpred;
    open_handlePulse; rewrite ?Hlocked, ?Hpred; cbn;
    split_tests; reflexivity.
Qed.



Lemma finiteOr_finite v fallback :
  is_finite (Number v) = true -> finiteOr v fallback = Number v.
Proof. unfold finiteOr. now intros ->. Qed.


(** *** Disconnect and reconnect *)


End ClientFacts.

(** ** The theorems at concrete inputs *)

Section ClientExamples.
Import Client.
Existing Instance exampleHost.

Lemma serverNowMs_unlocked_witness :
  serverNowMs after_first_pulse 105 = None.
Proof.
  apply (serverNowMs_unlocked after_first_pulse
           (LastPulse.mk (JNumber 0) 1739700000000 1739700001000 1000 100) 105).
  - vm_compute. reflexivity.
  - vm_compute. reflexivity.
Defined.

(** The claim of C2 as stated fails: after one pulse the client is
    unlocked and has a [lastPulse], and [serverNowMs()] is [null], not
    [now_ms] plus the 5 ms elapsed since the arrival. *)
Lemma serverNowMs_has_no_last_pulse_estimate :
  locked after_first_pulse = false /\
  lastPulse after_first_pulse
  = Some (LastPulse.mk (JNumber 0) 1739700000000 1739700001000 1000 100) /\
  serverNowMs after_first_pulse 105 = None /\
  serverNowMs after_first_pulse 105
  <> Some (PrimFloat.add 1739700000000 (PrimFloat.sub 105 100)).
Proof. vm_compute. repeat split. discriminate. Qed.

Lemma after_two_on_time_reachable :
  reachable quickOptions
    (fst (onMessage quickOptions
            (fst (onMessage quickOptions connected_client
                    (Some (pulse_at 0 1739700000000)) (arriving 100)))
            (Some (pulse_at 1 1739700001000)) (arriving 1100))).
Proof.
  apply reach_message, reach_message. unfold connected_client.
  apply reach_open, reach_connect, reach_initial.
Qed.

Lemma after_three_on_time_reachable : reachable quickOptions after_three_on_time.
Proof. apply reach_message, after_two_on_time_reachable. Qed.

Lemma locked_after_message_witness :
  locked after_three_on_time = true
  <-> lock_condition quickOptions after_three_on_time.
Proof.
  apply (locked_after_message quickOptions _
           (Some (pulse_at 2 1739700002000)) (arriving 2100)).
  apply after_two_on_time_reachable.
Defined.

(** The claim of C4 as stated fails: with a window of two and two outliers
    allowed, two outliers fill the window; [stableCount] is 0, which is at
    least [2 - 2], and the client is not locked. *)
Lemma locked_is_not_spec_lock_condition :
  recentStability after_two_outliers = [false; false] /\
  stableCount after_two_outliers = 0 /\
  spec_lock_condition tolerantOptions after_two_outliers /\
  locked after_two_outliers = false.
Proof.
  assert (Hq : recentStability after_two_outliers = [false; false])
    by (vm_compute; reflexivity).
  assert (Hn : stableCount after_two_outliers = 0) by (vm_compute; reflexivity).
  split; [exact Hq|]. split; [exact Hn|]. split.
  - unfold spec_lock_condition. rewrite Hq, Hn. cbn. lia.
  - vm_compute. reflexivity.
Qed.

Lemma sticky_locked_message_is_discarded_witness :
  onMessage quickOptions after_three_on_time
    (Some (pulse_at 3 1739700003000)) (arriving 3100)
  = (after_three_on_time, []).
Proof.
  apply sticky_locked_message_is_discarded.
  - reflexivity.
  - vm_compute. reflexivity.
Defined.

Lemma locked_projects_from_lock_origin_witness :
  lock_origin_present after_three_on_time /\
  (locked after_three_on_time = true ->
   exists originMono originServer,
     lockOriginMonoMs after_three_on_time = Some originMono /\
     lockOriginServerMs after_three_on_time = Some originServer /\
     forall now,
       serverNowMs after_three_on_time now
       = Some (PrimFloat.add originServer (PrimFloat.sub now originMono))).
Proof.
  apply (locked_projects_from_lock_origin quickOptions).
  apply after_three_on_time_reachable.
Defined.





End ClientExamples.

(* ===================================================================== *)
(** * Part V: further properties of the server                            *)
(* ===================================================================== *)

#[local] Set Warnings "-clear-no-such-hyp".

Section FrameMore.
Import Server.

(** The layout of the frame, for use below. *)
Lemma writeText_frame_prefix payload :
  writeText_frame payload
  = finAndText :: three_tier_length (Z.of_nat (length payload)) ++ payload.
Proof.
  unfold writeText_frame, three_tier_length.
  set (n := Z.of_nat (length payload)).
  assert (Hn : 0 <= n) by (subst n; lia).
  destruct (Z.ltb_spec n 126); [now rewrite byte_small by lia|].
  destruct (Z.leb_spec n 65535).
  - cbn [big_endian app]. rewrite byte_shiftr by lia. unfold byte.
    change (256 ^ Z.of_nat 1) with (2 ^ 8).
    change (256 ^ Z.of_nat 0) with 1. now rewrite Z.div_1_r.
  - cbn [big_endian app]. rewrite !byte_shiftr_uint64 by lia.
    pose proof (byte_shiftr_uint64 n 0 ltac:(lia)) as Hlow.
    rewrite Z.shiftr_0_r, Z.pow_0_r, Z.div_1_r in Hlow. rewrite Hlow.
    change (256 ^ Z.of_nat 0) with 1. now rewrite Z.div_1_r.
Qed.

Lemma length_big_endian k n : length (big_endian k n) = k.
Proof. induction k; cbn; congruence. Qed.

Lemma length_three_tier n :
  length (three_tier_length n)
  = if n <? 126 then 1%nat else if n <=? 65535 then 3%nat else 9%nat.
Proof.
  unfold three_tier_length.
  destruct (n <? 126); [reflexivity|].
  destruct (n <=? 65535); cbn [length]; now rewrite length_big_endian.
Qed.

(** X1.  A frame is 2, 4 or 10 bytes longer than its payload, by tier, and
    so always fits the capacity [len(payload)+10] that [writeText]
    allocates. *)
Theorem writeText_frame_length payload :
  let n := Z.of_nat (length payload) in
  Z.of_nat (length (writeText_frame payload))
  = n + (if n <? 126 then 2 else if n <=? 65535 then 4 else 10) /\
  (length (writeText_frame payload) <= length payload + 10)%nat.
Proof.
  intros n. rewrite writeText_frame_prefix. cbn [length].
  rewrite length_app, length_three_tier. fold n.
  destruct (n <? 126); [lia|]. destruct (n <=? 65535); lia.
Qed.

Lemma head_three_tier n rest :
  0 <= n ->
  exists b1 tl, three_tier_length n ++ rest = b1 :: tl /\
    (if n <? 126 then b1 = n else if n <=? 65535 then b1 = 126 else b1 = 127).
Proof.
  intros Hn. unfold three_tier_length.
  destruct (n <? 126); [cbn; eauto|].
  destruct (n <=? 65535); cbn; eauto.
Qed.

(** X2.  A receiver reads the payload back from a frame and finds the
    bytes that follow it untouched, so frames written one after the other
    can be taken apart again. *)
Theorem decode_frame_writeText payload rest :
  Z.of_nat (length payload) < 2 ^ 64 ->
  decode_frame (writeText_frame payload ++ rest) = Some (payload, rest).
Proof.
  intros Hlen. rewrite writeText_frame_prefix.
  set (n := Z.of_nat (length payload)) in *.
  assert (Hn : 0 <= n) by (subst n; lia).
  pose proof (read_length_three_tier n (payload ++ rest) ltac:(lia)) as Hread.
  assert (Hbody :
    (if Z.of_nat (length (payload ++ rest)) <? n then None
     else Some (take (Z.to_nat n) (payload ++ rest),
                drop (Z.to_nat n) (payload ++ rest)))
    = Some (payload, rest) :> option (list Z * list Z)).
  { rewrite length_app.
    destruct (Z.ltb_spec (Z.of_nat (length payload + length rest)) n); [lia|].
    subst n. now rewrite Nat2Z.id, take_app_length, drop_app_length. }
  unfold decode_frame. cbn [app]. rewrite Z.eqb_refl. cbn [negb].
  rewrite <- app_assoc.
  unfold three_tier_length in *.
  destruct (Z.ltb_spec n 126) as [H1|H1].
  - cbn [app] in *. rewrite Hread.
    destruct (Z.ltb_spec n 126); [|lia]. cbn [drop]. exact Hbody.
  - destruct (Z.leb_spec n 65535) as [H2|H2].
    + assert (Hbe : length (big_endian 2 n) = 2%nat) by apply length_big_endian.
      destruct (big_endian 2 n) as [|x [|y [|]]]; try discriminate.
      cbn [app] in *. rewrite Hread.
      change (126 <? 126) with false. change (126 =? 126) with true.
      cbn [drop]. exact Hbody.
    + assert (Hbe : length (big_endian 8 n) = 8%nat) by apply length_big_endian.
      destruct (big_endian 8 n)
        as [|x1 [|x2 [|x3 [|x4 [|x5 [|x6 [|x7 [|x8 [|]]]]]]]]];
        try discriminate.
      cbn [app] in *. rewrite Hread.
      change (127 <? 126) with false. change (127 =? 126) with false.
      cbn [drop]. exact Hbody.
Qed.

End FrameMore.

Section HubMore.
Import Server.

Lemma hub_eq h1 h2 :
  conns h1 = conns h2 -> closed h1 = closed h2 -> delivered h1 = delivered h2 ->
  h1 = h2.
Proof. destruct h1, h2; cbn; intros -> -> ->; reflexivity. Qed.

(** X3.  [remove] is idempotent; after it the connection is no member and
    is closed, and removing a connection that is no member leaves the
    membership as it is. *)
Theorem remove_idempotent h c :
  remove (remove h c) c = remove h c /\
  (c ∉ conns (remove h c)) /\
  c ∈ closed (remove h c) /\
  (c ∉ conns h -> conns (remove h c) = conns h).
Proof.
  repeat split.
  - apply hub_eq; cbn; [set_solver | set_solver | reflexivity].
  - cbn. set_solver.
  - cbn. set_solver.
  - intros Hc. cbn. set_solver.
Qed.

(** X4.  [count] starts at 0, grows by one when a new connection is added,
    shrinks by one when a member is removed, and is unchanged by adding a
    member again or removing a connection that is no member. *)
Theorem count_add_remove h c :
  (c ∉ conns h -> count (add h c) = count h + 1) /\
  (c ∈ conns h -> count (add h c) = count h) /\
  (c ∈ conns h -> count (remove h c) = count h - 1) /\
  (c ∉ conns h -> count (remove h c) = count h) /\
  count newHub = 0.
Proof.
  unfold count. cbn. repeat split.
  - intros Hc. rewrite size_union by set_solver. rewrite size_singleton. lia.
  - intros Hc. replace ({[c]} ∪ conns h) with (conns h) by set_solver. lia.
  - intros Hc.
    assert (Hs : size (conns h) = (size (conns h ∖ {[c]}) + 1)%nat).
    { rewrite (union_difference_L {[c]} (conns h)) at 1 by set_solver.
      rewrite size_union by set_solver. rewrite size_singleton. lia. }
    lia.
  - intros Hc. replace (conns h ∖ {[c]}) with (conns h) by set_solver. lia.
Qed.

Variable fails : wsConn -> bool.
Variable data : list Z.

(** The state after the loop, connection by connection. *)
Lemma write_snapshot_members snapshot h :
  NoDup snapshot ->
  let h' := write_snapshot fails data snapshot h in
  forall c,
    (c ∈ conns h' <->
     c ∈ conns h /\ ~ (c ∈ snapshot /\ write_errors fails h c = true)) /\
    (c ∈ closed h' <-> c ∈ closed h \/ (c ∈ snapshot /\ write_errors fails h c = true)).
Proof.
  intros Hnd h' c. subst h'.
  destruct (decide (c ∈ snapshot)) as [Hin|Hout].
  - pose proof (write_snapshot_inside fails data snapshot h c Hnd Hin) as H.
    cbn in H. destruct (write_errors fails h c) eqn:He.
    + destruct H as (H1 & H2 & _). intuition congruence.
    + destruct H as (H1 & H2 & _). rewrite H1, H2. intuition congruence.
  - destruct (write_snapshot_outside fails data snapshot h c Hout) as (H1 & H2 & _).
    cbn in H1, H2. rewrite H1, H2. tauto.
Qed.

Lemma delivered_interfere others : forall h,
  delivered (fold_left interfere others h) = delivered h.
Proof.
  induction others as [|a rest IH]; intros h; cbn; [reflexivity|].
  rewrite IH. destruct a; reflexivity.
Qed.

(** X5.  A connection that is not in the snapshot receives nothing from
    the broadcast, also when another goroutine adds it to the hub while the
    broadcast is writing. *)
Theorem no_retroactive_delivery snapshot : forall h c,
  c ∉ snapshot.*1 ->
  delivered (write_snapshot_among fails data snapshot h) c = delivered h c.
Proof.
  induction snapshot as [|[a others] rest IH]; intros h c Hc; cbn.
  - reflexivity.
  - cbn in Hc. apply not_elem_of_cons in Hc as [Hne Hrest].
    unfold writeText. destruct (write_errors fails h a).
    + rewrite IH by assumption. now rewrite delivered_interfere.
    + rewrite IH by assumption. rewrite delivered_interfere. cbn.
      now rewrite bool_decide_eq_false_2.
Qed.

End HubMore.

Section BroadcastMore.
Import Server.

(** X6.  A broadcast never adds a member.  When the message does not
    serialize, the hub is left exactly as it was.  When it serializes, the
    members afterwards are exactly the former members whose write
    succeeded, the failed ones are closed, and [count] drops by the number
    of failed writes. *)
Theorem broadcastJSON_survivors
    (V : Type) (marshal : V -> option (list Z)) (fails : wsConn -> bool)
    (h : hub) (v : V) (snapshot : list wsConn) :
  snapshot ≡ₚ elements (conns h) ->
  let h' := broadcastJSON marshal fails snapshot h v in
  let failed := filter (fun c => write_errors fails h c = true) (conns h) in
  (forall c, c ∈ conns h' -> c ∈ conns h) /\
  (marshal v = None -> h' = h) /\
  (is_Some (marshal v) ->
   conns h' = conns h ∖ failed /\
   closed h' = closed h ∪ failed /\
   count h' = count h - Z.of_nat (size failed)).
Proof.
  intros Hperm h' failed.
  assert (Hnd : NoDup snapshot) by (rewrite Hperm; apply NoDup_elements).
  assert (Hin : forall c, c ∈ snapshot <-> c ∈ conns h).
  { intros c. rewrite Hperm. apply elem_of_elements. }
  subst h'. unfold broadcastJSON.
  destruct (marshal v) as [data|];
    [|split; [auto | split; [reflexivity | intros [? [=]]]]].
  pose proof (write_snapshot_members fails data snapshot h Hnd) as Hm.
  cbn in Hm.
  assert (Hconns : conns (write_snapshot fails data snapshot h) = conns h ∖ failed).
  { apply set_eq. intros c. destruct (Hm c) as [-> _].
    subst failed. rewrite elem_of_difference, elem_of_filter, Hin. tauto. }
  assert (Hclosed : closed (write_snapshot fails data snapshot h) = closed h ∪ failed).
  { apply set_eq. intros c. destruct (Hm c) as [_ ->].
    subst failed. rewrite elem_of_union, elem_of_filter, Hin. tauto. }
  split; [|split].
  - intros c. rewrite Hconns. set_solver.
  - discriminate.
  - intros _. repeat split; [exact Hconns | exact Hclosed |].
    unfold count. rewrite Hconns.
    assert (Hsub : failed ⊆ conns h) by (subst failed; set_solver).
    assert (Hsize : size (conns h) = (size failed + size (conns h ∖ failed))%nat).
    { rewrite (union_difference_L failed (conns h) Hsub) at 1.
      apply size_union. set_solver. }
    lia.
Qed.

(** X7.  After a broadcast of a message that serializes, no member of the
    hub is a closed connection, whatever the hub looked like before. *)
Theorem broadcastJSON_purges_closed
    (V : Type) (marshal : V -> option (list Z)) (fails : wsConn -> bool)
    (h : hub) (v : V) (snapshot : list wsConn) :
  snapshot ≡ₚ elements (conns h) ->
  is_Some (marshal v) ->
  let h' := broadcastJSON marshal fails snapshot h v in
  conns h' ∩ closed h' = ∅.
Proof.
  intros Hperm [data Hdata] h'.
  assert (Hnd : NoDup snapshot) by (rewrite Hperm; apply NoDup_elements).
  assert (Hin : forall c, c ∈ snapshot <-> c ∈ conns h).
  { intros c. rewrite Hperm. apply elem_of_elements. }
  subst h'. unfold broadcastJSON. rewrite Hdata.
  pose proof (write_snapshot_members fails data snapshot h Hnd) as Hm.
  cbn in Hm. apply set_eq. intros c.
  rewrite elem_of_intersection, elem_of_empty.
  destruct (Hm c) as [-> ->]. rewrite Hin.
  unfold write_errors. rewrite orb_true_iff, bool_decide_eq_true.
  tauto.
Qed.

End BroadcastMore.

Section SchedulerMore.
Import Server.

Lemma uint64_range x : 0 <= uint64 x < 2 ^ 64.
Proof. unfold uint64. apply Z.mod_pos_bound. lia. Qed.

Lemma step_seq period s r :
  seq (fst (step period s r))
  = match snd (step period s r) with
    | Some _ => uint64 (seq s + 1)
    | None => seq s
    end /\
  match snd (step period s r) with
  | Some m => Seq m = seq s
  | None => True
  end.
Proof.
  unfold step. destruct (at_ s); cbn; auto.
  destruct (Until (next s) r <=? 0); cbn; auto.
Qed.

Lemma run_from_seq period : forall readings s k m,
  0 <= seq s < 2 ^ 64 ->
  nth_error (snd (run_from period s readings)) k = Some m ->
  Seq m = (seq s + Z.of_nat k) mod 2 ^ 64.
Proof.
  induction readings as [|r rest IH]; intros s k m Hs Hk; cbn in Hk.
  - destruct k; discriminate.
  - pose proof (step_seq period s r) as [Hseq Hmsg].
    destruct (step period s r) as [s1 out]. cbn in Hseq, Hmsg.
    destruct (run_from period s1 rest) as [s2 outs] eqn:Hrun.
    assert (Houts : outs = snd (run_from period s1 rest)) by now rewrite Hrun.
    destruct out as [m0|]; cbn in Hk.
    + destruct k as [|k]; cbn in Hk.
      * injection Hk as <-. rewrite Hmsg, Z.add_0_r, Z.mod_small; lia.
      * rewrite Houts in Hk. apply IH in Hk.
        2:{ rewrite Hseq. apply uint64_range. }
        rewrite Hk, Hseq. unfold uint64.
        rewrite Z.add_mod_idemp_l by lia. f_equal. lia.
    + rewrite Houts in Hk. apply IH in Hk; [|now rewrite Hseq].
      now rewrite Hk, Hseq.
Qed.

(** X9.  The k-th message the loop broadcasts carries [seq = k] (modulo
    2^64), and as soon as two clock readings were taken the message with
    [seq = 0] has been broadcast. *)
Theorem startPulseLoop_seq period readings :
  (forall k m,
     nth_error (startPulseLoop period readings) k = Some m ->
     Seq m = Z.of_nat k mod 2 ^ 64) /\
  ((2 <= length readings)%nat ->
   exists m, nth_error (startPulseLoop period readings) 0 = Some m /\ Seq m = 0).
Proof.
  split.
  - intros k m Hk. unfold startPulseLoop in Hk.
    destruct readings as [|r0 rest]; [destruct k; discriminate|].
    apply run_from_seq in Hk; [exact Hk | cbn; lia].
  - intros Hlen. destruct readings as [|r0 [|r1 rest]]; cbn in Hlen; try lia.
    unfold startPulseLoop. cbn.
    destruct (run_from period _ rest) as [s2 outs]. cbn. eauto.
Qed.

(** *** The announced instants *)

Lemma step_announce period s r :
  1000000 <= effective_period period ->
  effective_period period mod 1000000 = 0 ->
  let s1 := fst (step period s r) in
  match snd (step period s r) with
  | Some m => NextMS m = announce period s /\ NextMS m < announce period s1
  | None => announce period s <= announce period s1
  end.
Proof.
  intros Hpos Hwhole. unfold step, announce.
  destruct (at_ s); cbn.
  - split; [reflexivity|]. rewrite UnixMilli_Add_whole by assumption.
    assert (1 <= effective_period period / 1000000)
      by (apply Z.div_le_lower_bound; lia). lia.
  - lia.
  - split; [reflexivity|]. rewrite !UnixMilli_Add_whole by assumption.
    assert (1 <= effective_period period / 1000000)
      by (apply Z.div_le_lower_bound; lia). lia.
  - destruct (Until (next s) r <=? 0); cbn; [|lia].
    rewrite !UnixMilli_Add_whole by assumption.
    assert (1 <= effective_period period / 1000000)
      by (apply Z.div_le_lower_bound; lia). lia.
Qed.

Lemma run_from_announce period : forall readings s,
  1000000 <= effective_period period ->
  effective_period period mod 1000000 = 0 ->
  let out := snd (run_from period s readings) in
  Forall (fun m => announce period s <= NextMS m) out /\
  StronglySorted Z.lt (map NextMS out).
Proof.
  induction readings as [|r rest IH]; intros s Hpos Hwhole; cbn.
  - split; constructor.
  - pose proof (step_announce period s r Hpos Hwhole) as Hstep. cbn in Hstep.
    destruct (step period s r) as [s1 out]. cbn in Hstep.
    specialize (IH s1 Hpos Hwhole). cbn in IH.
    destruct (run_from period s1 rest) as [s2 outs]. cbn in IH |- *.
    destruct IH as [Hall Hsorted].
    destruct out as [m0|].
    + destruct Hstep as [Heq Hlt]. split.
      * constructor; [lia|].
        eapply Forall_impl; [exact Hall|]. cbn. intros m Hm. lia.
      * cbn. constructor; [exact Hsorted|].
        apply Forall_map. eapply Forall_impl; [exact Hall|].
        cbn. intros m Hm. lia.
    + split; [|exact Hsorted].
      eapply Forall_impl; [exact Hall|]. cbn. intros m Hm. lia.
Qed.

(** X10.  For a period of a whole number of milliseconds, the [next_ms]
    values of the broadcast messages are strictly increasing: no two
    messages announce the same tick, whatever the clock does. *)
Theorem startPulseLoop_next_ms_increasing period readings :
  1000000 <= effective_period period ->
  effective_period period mod 1000000 = 0 ->
  StronglySorted Z.lt (map NextMS (startPulseLoop period readings)).
Proof.
  intros Hpos Hwhole. unfold startPulseLoop.
  destruct readings as [|r0 rest]; [constructor|].
  apply run_from_announce; assumption.
Qed.

End SchedulerMore.

Section CatchUp.
Import Server.

Lemma Add_Add t a b : Add (Add t a) b = Add t (a + b).
Proof. unfold Add. cbn. f_equal; lia. Qed.

Lemma Add_zero t : Add t 0 = t.
Proof. destruct t. unfold Add. cbn. f_equal; lia. Qed.

Lemma catch_up_steps period r : forall n s,
  at_ s = AtCatchUp ->
  missed_ticks period s r = Z.of_nat n ->
  run_from period s (replicate (S n) r)
  = ({| at_ := AtUntil; seq := seq s;
        next := Add (next s) (Z.of_nat n * effective_period period) |}, []).
Proof.
  pose proof (effective_period_pos period) as HP.
  induction n as [|n IH]; intros s Hat Hk; unfold missed_ticks in Hk.
  - (* nothing to skip: the first test leaves the loop *)
    assert (Hlt : (mono r - mono (next s)) / effective_period period < 0) by lia.
    assert (mono r - mono (next s) < 0).
    { destruct (Z.lt_ge_cases (mono r - mono (next s)) 0); [assumption|].
      pose proof (Z.div_pos (mono r - mono (next s)) (effective_period period)).
      lia. }
    cbn. unfold step. rewrite Hat. unfold Until.
    destruct (Z.leb_spec (mono (next s) - mono r) 0); [lia|].
    cbn. now rewrite Add_zero.
  - (* one tick is skipped, [n] remain *)
    assert (Hge : 0 <= mono r - mono (next s)).
    { destruct (Z.lt_ge_cases (mono r - mono (next s)) 0) as [Hneg|]; [|assumption].
      assert ((mono r - mono (next s)) / effective_period period < 0)
        by (apply Z.div_lt_upper_bound; lia). lia. }
    change (replicate (S (S n)) r) with (r :: replicate (S n) r).
    cbn [run_from]. unfold step at 1. rewrite Hat. unfold Until at 1.
    destruct (Z.leb_spec (mono (next s) - mono r) 0); [|lia].
    rewrite IH; cbn.
    + f_equal. f_equal. rewrite Add_Add. f_equal. lia.
    + reflexivity.
    + unfold missed_ticks. cbn.
      replace (mono r - (mono (next s) + effective_period period))
        with (mono r - mono (next s) + (-1) * effective_period period) by lia.
      rewrite Z.div_add by lia. lia.
Qed.

(** X11.  While the clock stands at [r], the inner loop ends after one
    test more than there are missed ticks, broadcasts nothing, keeps [seq],
    and leaves [next] at the first scheduled instant after [r]. *)
Theorem catch_up_skips_missed_ticks period s r :
  at_ s = AtCatchUp ->
  let k := missed_ticks period s r in
  let s' := {| at_ := AtUntil; seq := seq s;
               next := Add (next s) (k * effective_period period) |} in
  run_from period s (replicate (S (Z.to_nat k)) r) = (s', []) /\
  0 < Until (next s') r /\
  (0 < k -> Until (next s') r <= effective_period period).
Proof.
  intros Hat k s'.
  pose proof (effective_period_pos period) as HP.
  assert (Hk0 : 0 <= k) by (subst k; unfold missed_ticks; lia).
  split.
  - rewrite (catch_up_steps period r (Z.to_nat k) s Hat)
      by (rewrite Z2Nat.id; [reflexivity | exact Hk0]).
    subst s'. now rewrite Z2Nat.id.
  - subst s' k. unfold Until, missed_ticks in *. cbn.
    pose proof (Z.div_mod (mono r - mono (next s)) (effective_period period)
                  ltac:(lia)) as Hdm.
    pose proof (Z.mod_pos_bound (mono r - mono (next s))
                  (effective_period period) HP) as Hmod.
    set (q := (mono r - mono (next s)) / effective_period period) in *.
    set (m := (mono r - mono (next s)) mod effective_period period) in *.
    set (P := effective_period period) in *.
    destruct (Z.max_spec 0 (q + 1)) as [[Hq ->] | [Hq ->]]; split; nia.
Qed.

(** *** The period *)

Lemma step_default_period period s r :
  period <= 0 -> step period s r = step Second s r.
Proof.
  intros Hp. unfold step, effective_period.
  destruct (Z.leb_spec period 0); [reflexivity | lia].
Qed.

Lemma run_from_default_period period : forall readings s,
  period <= 0 -> run_from period s readings = run_from Second s readings.
Proof.
  induction readings as [|r rest IH]; intros s Hp; cbn; [reflexivity|].
  rewrite step_default_period by assumption.
  destruct (step Second s r) as [s1 out]. now rewrite IH.
Qed.

(** X12.  Every broadcast message has type "pulse" and the same
    [period_ms], the configured period in milliseconds; a period that is not
    positive makes the loop run exactly as with one second, with
    [period_ms = 1000]. *)
Theorem startPulseLoop_period period readings :
  Forall (fun m => PeriodMS m = Milliseconds (effective_period period) /\
                   Type_ m = "pulse")
         (startPulseLoop period readings) /\
  (period <= 0 ->
   startPulseLoop period readings = startPulseLoop Second readings /\
   Forall (fun m => PeriodMS m = 1000) (startPulseLoop period readings)).
Proof.
  assert (Hall : Forall (fun m => PeriodMS m = Milliseconds (effective_period period) /\
                                  Type_ m = "pulse")
                        (startPulseLoop period readings)).
  { apply List.Forall_forall. intros m Hin. unfold startPulseLoop in Hin.
    destruct readings as [|r0 rest]; [contradiction|].
    destruct (run_from_emitted period rest (start period r0) m)
      as (s & r & _ & _ & Hm); [constructor | exact Hin |].
    destruct (step_message period s r m Hm) as (Ht & _ & Hp & _). auto. }
  split; [exact Hall|].
  intros Hp. split.
  - unfold startPulseLoop. destruct readings as [|r0 rest]; [reflexivity|].
    rewrite run_from_default_period by assumption.
    unfold start, effective_period.
    destruct (Z.leb_spec period 0); [reflexivity | lia].
  - eapply Forall_impl; [exact Hall|]. cbn. intros m [-> _].
    unfold effective_period. destruct (Z.leb_spec period 0); [reflexivity | lia].
Qed.

End CatchUp.

Section Configuration.
Import Server.
Context `{Library}.

Lemma int64_small x : - 2 ^ 63 <= x < 2 ^ 63 -> int64 x = x.
Proof. intros Hx. unfold int64. rewrite Z.mod_small; lia. Qed.

Lemma parse_digits_nonneg s : forall acc n,
  0 <= acc -> parse_digits s acc = Some n -> 0 <= n.
Proof.
  induction s as [|c rest IH]; intros acc n Hacc; cbn.
  - now intros [= <-].
  - unfold digit.
    destruct ((48 <=? Z.of_nat (Ascii.nat_of_ascii c))
              && (Z.of_nat (Ascii.nat_of_ascii c) <=? 57)) eqn:Hd; [|discriminate].
    apply andb_true_iff in Hd as [H1 H2].
    apply Z.leb_le in H1, H2. apply IH. lia.
Qed.

Lemma ParseInt_range s n :
  ParseInt s = Some n -> - 2 ^ 63 <= n < 2 ^ 63 /\ s <> EmptyString.
Proof.
  unfold ParseInt. destruct s as [|c rest]; [discriminate|].
  intros Hp. split; [|discriminate].
  destruct (if Ascii.eqb c plus_sign || Ascii.eqb c minus_sign
            then rest else String c rest) as [|c' body] eqn:Hbody;
    [discriminate|].
  destruct (parse_digits (String c' body) 0) as [un|] eqn:Hun; [|discriminate].
  assert (0 <= un) by (eapply parse_digits_nonneg; [|exact Hun]; lia).
  destruct (Ascii.eqb c minus_sign).
  - destruct (Z.leb_spec un (2 ^ 63)); [|discriminate].
    injection Hp as <-. lia.
  - destruct (Z.ltb_spec un (2 ^ 63)); [|discriminate].
    injection Hp as <-. lia.
Qed.

Lemma parsePeriodMS_in_range env ms :
  ParseInt (TrimSpace env) = Some ms ->
  1 <= ms <= 9223372036854 ->
  parsePeriodMS env = ms * Millisecond /\
  effective_period (parsePeriodMS env) = ms * Millisecond /\
  effective_period (parsePeriodMS env) mod 1000000 = 0 /\
  Milliseconds (effective_period (parsePeriodMS env)) = ms.
Proof.
  intros Hparse Hms.
  assert (Hraw : parsePeriodMS env = ms * Millisecond).
  { unfold parsePeriodMS.
    destruct (String.eqb_spec (TrimSpace env) "") as [He|_].
    - rewrite He in Hparse. discriminate.
    - rewrite Hparse. destruct (Z.leb_spec ms 0); [lia|].
      apply int64_small. unfold Millisecond. lia. }
  rewrite Hraw. unfold effective_period, Millisecond.
  destruct (Z.leb_spec (ms * 1000000) 0); [lia|].
  repeat split.
  - apply Z.mod_mul. lia.
  - unfold Milliseconds. rewrite Z.quot_div_nonneg by lia.
    apply Z.div_mul. lia.
Qed.

Lemma parsePeriodMS_default env :
  (TrimSpace env = EmptyString \/
   ParseInt (TrimSpace env) = None \/
   (exists ms, ParseInt (TrimSpace env) = Some ms /\ ms <= 0)) ->
  parsePeriodMS env = Second.
Proof.
  unfold parsePeriodMS. intros [He | [Hn | (ms & Hms & Hle)]].
  - now rewrite He.
  - rewrite Hn. now destruct (String.eqb (TrimSpace env) "").
  - rewrite Hms. destruct (String.eqb (TrimSpace env) ""); [reflexivity|].
    destruct (Z.leb_spec ms 0); [reflexivity | lia].
Qed.

(** X14.  Unless [PULSE_PERIOD_MS] holds a number above 9223372036854,
    the period the loop runs with is a whole number of milliseconds and at
    least one; when the variable holds a number from 1 on, it is that many
    milliseconds, and [period_ms] is that number. *)
Theorem parsePeriodMS_whole_milliseconds env :
  (forall ms, ParseInt (TrimSpace env) = Some ms -> ms <= 9223372036854) ->
  let p := effective_period (parsePeriodMS env) in
  1000000 <= p /\ p mod 1000000 = 0 /\
  (forall ms, ParseInt (TrimSpace env) = Some ms -> 1 <= ms ->
     p = ms * Millisecond /\ Milliseconds p = ms).
Proof.
  intros Hbound p. subst p.
  assert (Hsecond : 1000000 <= effective_period Second /\
                    effective_period Second mod 1000000 = 0).
  { unfold effective_period, Second. cbn. split; [lia | reflexivity]. }
  destruct (ParseInt (TrimSpace env)) as [ms|] eqn:Hparse.
  - destruct (Z.le_gt_cases ms 0) as [Hle|Hgt].
    + rewrite (parsePeriodMS_default env) by eauto.
      destruct Hsecond as [H1 H2]. split; [exact H1|]. split; [exact H2|].
      intros ms' [= <-] Hpos. lia.
    + specialize (Hbound ms eq_refl).
      destruct (parsePeriodMS_in_range env ms Hparse ltac:(lia))
        as (_ & Hp & Hwhole & Hms).
      split; [rewrite Hp; unfold Millisecond; lia|].
      split; [exact Hwhole|].
      intros ms' [= <-] _. split; [exact Hp | exact Hms].
  - rewrite (parsePeriodMS_default env) by auto.
    destruct Hsecond as [H1 H2]. split; [exact H1|]. split; [exact H2|].
    intros ms' [=].
Qed.

End Configuration.

Section Handshake.
Import Server.
Context `{Library}.

Lemma Split_nonempty s sep : Split s sep <> [].
Proof.
  destruct s as [|c rest]; cbn; [discriminate|].
  destruct (Split rest sep); [discriminate|].
  destruct (Ascii.eqb c sep); discriminate.
Qed.

Lemma Split_app a b sep :
  Split (a +:+ String sep b) sep = Split a sep ++ Split b sep.
Proof.
  induction a as [|c a IH].
  - change (EmptyString +:+ String sep b) with (String sep b). cbn.
    destruct (Split b sep) eqn:Hb; [now apply Split_nonempty in Hb|].
    now rewrite Ascii.eqb_refl.
  - change (String c a +:+ String sep b) with (String c (a +:+ String sep b)).
    cbn. rewrite IH. destruct (Split a sep) as [|p ps] eqn:Ha.
    + now apply Split_nonempty in Ha.
    + cbn. destruct (Ascii.eqb c sep); reflexivity.
Qed.

Lemma Split_without_sep s sep :
  ~ In sep (String.list_ascii_of_string s) -> Split s sep = [s].
Proof.
  induction s as [|c s IH]; cbn; [reflexivity|].
  intros Hno. rewrite IH by tauto.
  destruct (Ascii.eqb_spec c sep); [|reflexivity].
  exfalso. apply Hno. now left.
Qed.

Lemma Split_concat parts : 
  parts <> [] ->
  Forall (fun p => ~ In comma (String.list_ascii_of_string p)) parts ->
  Split (String.concat (String comma EmptyString) parts) comma = parts.
Proof.
  induction parts as [|p rest IH]; intros Hne Hall; [congruence|].
  apply Forall_cons in Hall as [Hp Hrest].
  destruct rest as [|q rest].
  - cbn. now apply Split_without_sep.
  - change (String.concat (String comma EmptyString) (p :: q :: rest))
      with (p +:+ String comma (String.concat (String comma EmptyString) (q :: rest))).
    rewrite Split_app, IH by (assumption || discriminate).
    now rewrite Split_without_sep.
Qed.

(** X15.  On a header value made of comma-separated tokens,
    [containsToken] holds exactly when one of the tokens, trimmed, equals
    the wanted one up to case: [Split] undoes the joining. *)
Theorem containsToken_tokens parts want :
  parts <> [] ->
  Forall (fun p => ~ In comma (String.list_ascii_of_string p)) parts ->
  containsToken (String.concat (String comma EmptyString) parts) want
  = existsb (fun p => EqualFold (TrimSpace p) want) parts.
Proof.
  intros Hne Hall. unfold containsToken. now rewrite Split_concat.
Qed.

Lemma containsToken_comma a b want :
  containsToken (a +:+ String comma b) want
  = containsToken a want || containsToken b want.
Proof. unfold containsToken. now rewrite Split_app, existsb_app. Qed.

(** The checks that all have to pass for an upgrade. *)
Lemma upgradeWebSocket_accepts_iff w r :
  fst (upgradeWebSocket w r) = inr tt <->
  containsToken (Connection r) "Upgrade" = true /\
  EqualFold (Upgrade r) "websocket" = true /\
  Sec_WebSocket_Version r = "13" /\
  TrimSpace (Sec_WebSocket_Key r) <> EmptyString /\
  is_hijacker w = true /\ hijack_fails w = false /\
  write_fails w = false /\ flush_fails w = false.
Proof.
  unfold upgradeWebSocket.
  destruct (containsToken (Connection r) "Upgrade"); cbn;
    [|split; [discriminate | intros (? & _); discriminate]].
  destruct (EqualFold (Upgrade r) "websocket"); cbn;
    [|split; [discriminate | intros (_ & ? & _); discriminate]].
  destruct (String.eqb_spec (Sec_WebSocket_Version r) "13") as [Hv|Hv]; cbn;
    [|split; [discriminate | intros (_ & _ & ? & _); contradiction]].
  destruct (String.eqb_spec (TrimSpace (Sec_WebSocket_Key r)) "") as [Hk|Hk];
    [split; [discriminate | intros (_ & _ & _ & ? & _); contradiction]|].
  destruct (is_hijacker w); cbn;
    [|split; [discriminate | intros (_ & _ & _ & _ & ? & _); discriminate]].
  destruct (hijack_fails w);
    [split; [discriminate | intros (_ & _ & _ & _ & _ & ? & _); discriminate]|].
  destruct (write_fails w);
    [split; [discriminate | intros (_ & _ & _ & _ & _ & _ & ? & _); discriminate]|].
  destruct (flush_fails w);
    [split; [discriminate | intros (_ & _ & _ & _ & _ & _ & _ & ?); discriminate]|].
  cbn. tauto.
Qed.

(** X17.  A successful upgrade has hijacked the connection, left it open
    and sent the 101 response with the accept token of the trimmed key.  A
    failed one has sent nothing; it has either not touched the connection
    or, when the response could not be written or flushed, closed it. *)
Theorem upgradeWebSocket_effects w r :
  let '(result, effects) := upgradeWebSocket w r in
  match result with
  | inr _ =>
      hijacked effects = true /\ conn_closed effects = false /\
      flushed effects
      = Some (handshake_response (wsAccept (TrimSpace (Sec_WebSocket_Key r))))
  | inl e =>
      flushed effects = None /\
      conn_closed effects = hijacked effects /\
      (hijacked effects = true -> e = WriteHandshake \/ e = FlushHandshake)
  end.
Proof.
  unfold upgradeWebSocket.
  repeat match goal with
         | |- context [if ?b then _ else _] => destruct b; cbn
         end; auto; repeat split; intros; discriminate.
Qed.

(** X16.  The [/ws] handler registers the new connection exactly when the
    request names the upgrade in [Connection], asks for [websocket], has
    version 13 and a key, and the connection could be hijacked and took the
    response; in every other case the hub is left as it was and the handler
    answers with an error. *)
Theorem handle_ws_registers_iff h w r c :
  let accepted :=
    containsToken (Connection r) "Upgrade" = true /\
    EqualFold (Upgrade r) "websocket" = true /\
    Sec_WebSocket_Version r = "13" /\
    TrimSpace (Sec_WebSocket_Key r) <> EmptyString /\
    is_hijacker w = true /\ hijack_fails w = false /\
    write_fails w = false /\ flush_fails w = false in
  (accepted -> handle_ws h w r c = (add h c, None)) /\
  (~ accepted -> exists e, handle_ws h w r c = (h, Some e)).
Proof.
  intros accepted. subst accepted.
  pose proof (upgradeWebSocket_accepts_iff w r) as Hiff.
  unfold handle_ws. destruct (fst (upgradeWebSocket w r)) as [e|[]].
  - split.
    + intros Ha. apply Hiff in Ha. discriminate.
    + eauto.
  - split.
    + reflexivity.
    + intros Hno. exfalso. apply Hno, Hiff. reflexivity.
Qed.

End Handshake.

(* ===================================================================== *)
(** * Part VI: further properties of the client                           *)
(* ===================================================================== *)

Section ClientMore.
Import Client.
Context `{Host}.

Ltac split_tests :=
  repeat match goal with
         | |- context [if negb ?b then _ else _] => destruct b eqn:?; cbn in *
         | |- context [if ?a && _ then _ else _] => destruct a eqn:?; cbn in *
         | |- context [if ?b then _ else _] => destruct b eqn:?; cbn in *
         | |- context [match ?x with Some _ => _ | None => _ end] =>
             destruct x eqn:?; cbn in *
         end.

Ltac use_tests :=
  repeat match goal with
         | Hb : ?b = true |- context [?b] => rewrite Hb; cbn
         | Hb : ?b = false |- context [?b] => rewrite Hb; cbn
         end.

Ltac open_handlePulse :=
  unfold handlePulse, updateStability, captureLockOrigin, clearLockOrigin,
    disconnect, predictNextArrivalMonoMs; cbn.

Local Arguments finiteOr : simpl never.

(** Induction over the reachable states with the message case reduced to
    a pulse that is not discarded. *)
Lemma reachable_ind_pulse o (P : PulseSyncClient -> Prop) :
  P initial ->
  (forall c, P c -> P (set_ws true c)) ->
  (forall c b, P c ->
     P (set_connected false (set_ws false (set_preserveStateOnClose b c)))) ->
  (forall c, P c -> P (set_connected true c)) ->
  (forall c, P c -> P (fst (onClose c))) ->
  (forall c pulse t, reachable o c -> P c -> stickyLock o && locked c = false ->
     P (fst (handlePulse o c pulse t))) ->
  forall c, reachable o c -> P c.
Proof.
  intros Hinit Hconn Hdisc Hopen Hclose Hpulse c Hr.
  induction Hr as [ | c Hr IH | c p Hr IH | c Hr IH | c Hr IH | c parsed t Hr IH].
  - exact Hinit.
  - unfold connect. destruct (ws c); auto.
  - unfold disconnect. destruct (ws c); cbn; auto.
  - cbn. auto.
  - auto.
  - unfold onMessage. destruct parsed as [msg|]; [|exact IH].
    destruct (isPulseMessage msg); [|exact IH]. cbn [negb].
    destruct (stickyLock o && locked c) eqn:Hgo.
    + unfold handlePulse. rewrite Hgo. exact IH.
    + now apply Hpulse.
Qed.

(** *** The window *)

Lemma handlePulse_window o c pulse t :
  stickyLock o && locked c = false ->
  let c' := fst (handlePulse o c pulse t) in
  match lastPredictedArrivalMono c with
  | None => recentStability c' = recentStability c /\
            stableCount c' = stableCount c
  | Some p =>
      let entry := PrimFloat.leb (PrimFloat.abs (PrimFloat.sub (at_arrival t) p))
                                 (thresholdMs o) in
      let q := recentStability c ++ [entry] in
      recentStability c'
      = (if Z.of_nat (length q) >? requiredStablePulses o then tail q else q) /\
      stableCount c' = stable_entries (recentStability c')
  end.
Proof.
  intros Hgo. unfold handlePulse. rewrite Hgo.
  destruct (locked c) eqn:Hlocked, (lastPredictedArrivalMono c) eqn:Hpred;
    open_handlePulse; rewrite ?Hlocked, ?Hpred; cbn;
    split_tests; split; reflexivity.
Qed.

Lemma length_tail_pred {A} (l : list A) : length (tail l) = pred (length l).
Proof. destruct l; reflexivity. Qed.

Lemma stable_entries_bounds q : 0 <= stable_entries q <= Z.of_nat (length q).
Proof.
  unfold stable_entries. pose proof (length_filter (fun b => b = true) q). lia.
Qed.

(** X18.  In every reachable state [stableCount] is the number of stable
    entries of the window, hence between 0 and the window's length, and the
    window holds at most [requiredStablePulses] entries. *)
Theorem window_invariant o c :
  reachable o c ->
  stableCount c = stable_entries (recentStability c) /\
  0 <= stableCount c <= Z.of_nat (length (recentStability c)) /\
  Z.of_nat (length (recentStability c)) <= Z.max 0 (requiredStablePulses o).
Proof.
  intros Hr.
  assert (Hinv : stableCount c = stable_entries (recentStability c) /\
                 Z.of_nat (length (recentStability c))
                 <= Z.max 0 (requiredStablePulses o)).
  { revert c Hr. apply reachable_ind_pulse.
    - cbn. split; [reflexivity | lia].
    - auto.
    - auto.
    - auto.
    - intros c IH. unfold onClose. cbn.
      destruct (preserveStateOnClose c); cbn; [exact IH|].
      split; [reflexivity | lia].
    - intros c pulse t _ [IH1 IH2] Hgo.
      pose proof (handlePulse_window o c pulse t Hgo) as Hw. cbn in Hw.
      destruct (lastPredictedArrivalMono c) as [p|].
      + destruct Hw as [Hq Hn]. split; [exact Hn|]. rewrite Hq.
        destruct (Z.gtb_spec (Z.of_nat (length (recentStability c ++
                    [PrimFloat.leb (PrimFloat.abs (PrimFloat.sub (at_arrival t) p))
                                   (thresholdMs o)])))
                             (requiredStablePulses o)) as [Hgt|Hle].
        * rewrite length_tail_pred. rewrite length_app in *. cbn in *. lia.
        * lia.
      + destruct Hw as [-> ->]. auto. }
  destruct Hinv as [Hn Hlen]. split; [exact Hn|]. split; [|exact Hlen].
  rewrite Hn. apply stable_entries_bounds.
Qed.

(** *** The prediction *)



(** *** Events *)



(** *** Sticky acquisition *)


(** *** Calling the methods twice *)


(** *** The first pulse *)


(** *** Projections *)

(** X24.  In every reachable state [serverNowMs()] and
    [elapsedSinceLockMs()] return [null] exactly when the client is not
    locked. *)
Theorem projections_defined_iff_locked o c now :
  reachable o c ->
  (serverNowMs c now = None <-> locked c = false) /\
  (elapsedSinceLockMs c now = None <-> locked c = false).
Proof.
  intros Hr. pose proof (reachable_lock_origin o c Hr) as Hinv.
  unfold serverNowMs, elapsedSinceLockMs.
  destruct (locked c) eqn:Hl; cbn.
  - destruct (Hinv Hl) as (m & s & -> & ->). split; split; discriminate.
  - split; split; reflexivity.
Qed.

(** *** No early lock *)

Lemma onMessage_window_grows o c parsed t :
  (length (recentStability (fst (onMessage o c parsed t)))
   <= S (length (recentStability c)))%nat /\
  (lastPredictedArrivalMono c = None ->
   recentStability (fst (onMessage o c parsed t)) = recentStability c).
Proof.
  unfold onMessage. destruct parsed as [msg|]; [|cbn; split; [lia | reflexivity]].
  destruct (isPulseMessage msg); cbn [negb]; [|cbn; split; [lia | reflexivity]].
  destruct (stickyLock o && locked c) eqn:Hgo.
  - unfold handlePulse. rewrite Hgo. split; [cbn; lia | reflexivity].
  - pose proof (handlePulse_window o c msg t Hgo) as Hw. cbn in Hw.
    destruct (lastPredictedArrivalMono c) as [p|].
    + destruct Hw as [-> _]. split; [|discriminate].
      destruct (_ >? _); [rewrite length_tail_pred|];
        rewrite length_app; cbn; lia.
    + destruct Hw as [-> _]. split; [lia | reflexivity].
Qed.

Lemma deliver_window_grows o : forall inbound c,
  (length (recentStability (deliver o c inbound))
   <= length (recentStability c) + length inbound)%nat.
Proof.
  induction inbound as [|[parsed t] rest IH]; intros c; cbn; [lia|].
  specialize (IH (fst (onMessage o c parsed t))).
  pose proof (onMessage_window_grows o c parsed t) as [Hg _]. lia.
Qed.

Lemma deliver_reachable o : forall inbound c,
  reachable o c -> reachable o (deliver o c inbound).
Proof.
  induction inbound as [|[parsed t] rest IH]; intros c Hr; cbn; [exact Hr|].
  apply IH. now constructor.
Qed.

(** X25.  A client with an empty window and no prediction does not lock
    on its first [requiredStablePulses] messages, whatever they hold and
    whenever they arrive. *)
Theorem no_lock_before_window_fills o c inbound :
  reachable o c ->
  recentStability c = [] ->
  lastPredictedArrivalMono c = None ->
  1 <= requiredStablePulses o ->
  Z.of_nat (length inbound) <= requiredStablePulses o ->
  locked (deliver o c inbound) = false.
Proof.
  intros Hr Hq Hpred Hreq Hlen.
  assert (Hshort : Z.of_nat (length (recentStability (deliver o c inbound)))
                   < requiredStablePulses o).
  { destruct inbound as [|[parsed t] rest]; cbn.
    - rewrite Hq. cbn. lia.
    - pose proof (onMessage_window_grows o c parsed t) as [_ Hsame].
      pose proof (deliver_window_grows o rest (fst (onMessage o c parsed t))) as Hg.
      rewrite (Hsame Hpred), Hq in Hg. cbn in Hg, Hlen. lia. }
  destruct (locked (deliver o c inbound)) eqn:Hl; [|reflexivity].
  apply (locked_iff_lock_condition o) in Hl; [|now apply deliver_reachable].
  destruct Hl as [Hfull _]. lia.
Qed.

(** *** Stored numbers *)

Lemma finiteOr_is_finite v fallback :
  is_finite fallback = true -> is_finite (finiteOr v fallback) = true.
Proof.
  intros Hf. unfold finiteOr.
  destruct (is_finite (Number v)) eqn:Hn; assumption.
Qed.

(** X26.  In every reachable state the [now], [next] and period values of
    the stored pulse are finite numbers. *)
Theorem stored_timing_is_finite o c lp :
  reachable o c -> lastPulse c = Some lp -> timing_finite lp.
Proof.
  intros Hr. revert lp. revert c Hr.
  apply (reachable_ind_pulse o
           (fun c => forall lp, lastPulse c = Some lp -> timing_finite lp)); auto.
  - intros lp. discriminate.
  - intros c IH lp. unfold onClose. cbn.
    destruct (preserveStateOnClose c); cbn; apply IH.
  - intros c pulse t _ _ Hgo lp.
    rewrite (handlePulse_lastPulse o c pulse t Hgo). intros [= <-].
    unfold timing_finite. cbn.
    repeat split; apply finiteOr_is_finite; reflexivity.
Qed.

End ClientMore.

(** ** The further properties at concrete inputs *)

Section ServerExamples.
Import Server.
Existing Instance exampleLibrary.

Lemma decode_frame_writeText_witness :
  decode_frame (writeText_frame [123; 125] ++ [129; 0]) = Some ([123; 125], [129; 0]).
Proof.
  apply (decode_frame_writeText [123; 125] [129; 0]).
  vm_compute. reflexivity.
Defined.

Lemma no_retroactive_delivery_witness :
  delivered (write_snapshot_among example_fails [123; 125] busy_snapshot example_hub)
            4%positive
  = delivered example_hub 4%positive.
Proof.
  apply (no_retroactive_delivery example_fails [123; 125] busy_snapshot
           example_hub 4%positive).
  cbn. set_solver.
Defined.

Lemma busy_snapshot_distinct : NoDup busy_snapshot.*1.
Proof. cbn. repeat constructor; set_solver. Qed.

Lemma busy_snapshot_never_adds_3 : never_added 3%positive busy_snapshot.
Proof.
  unfold never_added, busy_snapshot. repeat constructor; cbn.
  - intros Hin. apply elem_of_cons in Hin as [Hin|Hin];
      [discriminate | by apply elem_of_nil in Hin].
  - intros Hin. apply elem_of_cons in Hin as [Hin|Hin];
      [discriminate | by apply elem_of_nil in Hin].
  - apply not_elem_of_nil.
Qed.

Lemma write_among_delivers_or_removes_witness :
  let h' := write_snapshot_among example_fails [123; 125] busy_snapshot
              example_hub in
  delivered h' 3%positive
  = delivered example_hub 3%positive ++ [writeText_frame [123; 125]] \/
  ((3%positive ∉ conns h') /\
   delivered h' 3%positive = delivered example_hub 3%positive).
Proof.
  apply (write_among_delivers_or_removes example_fails [123; 125] busy_snapshot
           example_hub 3%positive).
  - apply busy_snapshot_distinct.
  - cbn. set_solver.
  - apply busy_snapshot_never_adds_3.
Defined.

Lemma broadcastJSON_survivors_witness :
  let h' := broadcastJSON example_marshal example_fails
              (elements (conns example_hub)) example_hub [123; 125] in
  let failed := filter (fun c => write_errors example_fails example_hub c = true)
                       (conns example_hub) in
  (forall c, c ∈ conns h' -> c ∈ conns example_hub) /\
  (example_marshal [123; 125] = None -> h' = example_hub) /\
  (is_Some (example_marshal [123; 125]) ->
   conns h' = conns example_hub ∖ failed /\
   closed h' = closed example_hub ∪ failed /\
   count h' = count example_hub - Z.of_nat (size failed)).
Proof.
  apply (broadcastJSON_survivors (list Z) example_marshal example_fails
           example_hub [123; 125] (elements (conns example_hub))).
  reflexivity.
Defined.

Lemma broadcastJSON_purges_closed_witness :
  let h' := broadcastJSON example_marshal example_fails
              (elements (conns example_hub)) example_hub [123; 125] in
  conns h' ∩ closed h' = ∅.
Proof.
  apply (broadcastJSON_purges_closed (list Z) example_marshal example_fails
           example_hub [123; 125] (elements (conns example_hub))).
  - reflexivity.
  - eexists. reflexivity.
Defined.

Lemma startPulseLoop_next_ms_increasing_witness :
  StronglySorted Z.lt (map NextMS (startPulseLoop Second late_wakeup)).
Proof.
  apply (startPulseLoop_next_ms_increasing Second late_wakeup).
  - unfold effective_period, Second. cbn. lia.
  - reflexivity.
Defined.

Lemma catch_up_skips_missed_ticks_witness :
  let k := missed_ticks (250 * Millisecond) behind_schedule (clock_after 1300000) in
  let s' := {| at_ := AtUntil; seq := seq behind_schedule;
               next := Add (next behind_schedule)
                           (k * effective_period (250 * Millisecond)) |} in
  run_from (250 * Millisecond) behind_schedule
    (replicate (S (Z.to_nat k)) (clock_after 1300000)) = (s', []) /\
  0 < Until (next s') (clock_after 1300000) /\
  (0 < k -> Until (next s') (clock_after 1300000)
            <= effective_period (250 * Millisecond)).
Proof.
  apply (catch_up_skips_missed_ticks (250 * Millisecond) behind_schedule
           (clock_after 1300000)).
  reflexivity.
Defined.

(** The numbers of that example: four ticks are skipped (500, 750, 1000 and
    1250 ms), and [next] ends at 1500 ms. *)
Lemma catch_up_example :
  missed_ticks (250 * Millisecond) behind_schedule (clock_after 1300000) = 4 /\
  fst (run_from (250 * Millisecond) behind_schedule
         (replicate 5 (clock_after 1300000)))
  = {| at_ := AtUntil; seq := 3; next := clock_after 1500000 |}.
Proof. split; reflexivity. Qed.

Lemma step_next_not_past_witness :
  NowMS (mkPulse "pulse" 1 1000 1739700001001 1739700002000)
  <= NextMS (mkPulse "pulse" 1 1000 1739700001001 1739700002000).
Proof.
  apply (step_next_not_past Second waking (clock_after 1001200)).
  - reflexivity.
  - vm_compute. discriminate.
Defined.

Lemma parsePeriodMS_whole_milliseconds_witness :
  let p := effective_period (parsePeriodMS "250") in
  1000000 <= p /\ p mod 1000000 = 0 /\
  (forall ms, ParseInt (TrimSpace "250") = Some ms -> 1 <= ms ->
     p = ms * Millisecond /\ Milliseconds p = ms).
Proof.
  apply (parsePeriodMS_whole_milliseconds "250").
  intros ms Hms. vm_compute in Hms. injection Hms as <-. lia.
Defined.

(** Above the bound the product wraps: 18446744073710 ms become 448384 ns,
    and [period_ms] is 0. *)
Lemma parsePeriodMS_wraps :
  parsePeriodMS "18446744073710" = 448384 /\
  Milliseconds (effective_period (parsePeriodMS "18446744073710")) = 0.
Proof. split; reflexivity. Qed.

Lemma containsToken_tokens_witness :
  containsToken
    (String.concat (String comma EmptyString) ["keep-alive"; "Upgrade"]) "Upgrade"
  = existsb (fun p => EqualFold (TrimSpace p) "Upgrade") ["keep-alive"; "Upgrade"].
Proof.
  apply (containsToken_tokens ["keep-alive"; "Upgrade"] "Upgrade").
  - discriminate.
  - repeat constructor; cbn; intuition discriminate.
Defined.

(** A browser's request is accepted. *)
Lemma browser_request_registers :
  handle_ws example_hub willing_writer browser_request 9%positive
  = (add example_hub 9%positive, None).
Proof. reflexivity. Qed.

End ServerExamples.

Section MoreClientExamples.
Import Client.
Existing Instance exampleHost.

Lemma connected_client_reachable o : reachable o connected_client.
Proof. unfold connected_client. apply reach_open, reach_connect, reach_initial. Qed.

Lemma window_invariant_witness :
  stableCount after_three_on_time
  = stable_entries (recentStability after_three_on_time) /\
  0 <= stableCount after_three_on_time
    <= Z.of_nat (length (recentStability after_three_on_time)) /\
  Z.of_nat (length (recentStability after_three_on_time))
  <= Z.max 0 (requiredStablePulses quickOptions).
Proof.
  apply (window_invariant quickOptions after_three_on_time).
  apply after_three_on_time_reachable.
Defined.





Lemma projections_defined_iff_locked_witness :
  (serverNowMs after_three_on_time 5000 = None
   <-> locked after_three_on_time = false) /\
  (elapsedSinceLockMs after_three_on_time 5000 = None
   <-> locked after_three_on_time = false).
Proof.
  apply (projections_defined_iff_locked quickOptions after_three_on_time 5000).
  apply after_three_on_time_reachable.
Defined.

Lemma no_lock_before_window_fills_witness :
  locked (deliver defaultOptions connected_client two_pulses_and_noise) = false.
Proof.
  apply (no_lock_before_window_fills defaultOptions connected_client
           two_pulses_and_noise).
  - apply connected_client_reachable.
  - reflexivity.
  - reflexivity.
  - vm_compute. discriminate.
  - vm_compute. discriminate.
Defined.

Lemma stored_timing_is_finite_witness :
  timing_finite (LastPulse.mk (JNumber 2) 1739700002000 1739700003000 1000 2100).
Proof.
  apply (stored_timing_is_finite quickOptions after_three_on_time).
  - apply after_three_on_time_reachable.
  - vm_compute. reflexivity.
Defined.

End MoreClientExamples.
